(** * Benchmark-data generators: crew scheduling and greedy set cover

    A shallow embedding of [scripts/generate_crewscheduling_data.py] and
    [scripts/generate_setcover_data.py], followed by the properties of the
    two generation pipelines.

    Conventions of the embedding.
    - A Python [int] is a [Z]; a Python [str] is the list of its Unicode
      code points ([pystr]); a Python [list] is a [list]; a Python [set] of
      strings is a [gset pystr]; a [dict] with a fixed set of keys is a
      record.
    - The module-level generator of [random] is an oracle tape: the
      [n]-th primitive draw reads entry [n] of the tape, and the world
      carries the read position.  [random.seed] selects the tape.
    - A Python exception is the [Raise] outcome; it carries the world at
      the point where it was raised.
    - The file system is a finite map from paths to the lines written.
    - A Python [float] is idealised as an exact rational ([Q]): rounding of
      the binary64 operations is not modelled. *)

From Stdlib Require Import ZArith QArith Qround Qminmax Lqa String Ascii.
From Stdlib Require Import DecimalString DecimalPos DecimalZ.
From stdpp Require Import base list gmap sets sorting.

Local Open Scope Z_scope.

(** ** Python strings *)

Abbreviation pystr := (list N).

(** An ASCII literal of the source. *)
Definition lit (s : string) : pystr :=
  (λ a, N_of_ascii a) <$> list_ascii_of_string s.

(** [str(i)] and [f"{i}"] for an [int]. *)
Definition str_of_int (i : Z) : pystr :=
  lit (NilZero.string_of_int (Z.to_int i)).

(** [f"{i:02d}"]: sign-aware zero padding to width 2. *)
Definition format_02d (i : Z) : pystr :=
  let s := str_of_int i in
  if (length s <? 2)%nat then lit "0" ++ s else s.

(** [sep.join(parts)]. *)
Fixpoint join (sep : pystr) (parts : list pystr) : pystr :=
  match parts with
  | [] => []
  | [p] => p
  | p :: rest => p ++ sep ++ join sep rest
  end.

(** Comparison of two strings, code point by code point ([<=] on [str]). *)
Fixpoint pystr_leb (s t : pystr) : bool :=
  match s, t with
  | [], _ => true
  | _ :: _, [] => false
  | a :: s', b :: t' =>
      if (a <? b)%N then true
      else if (b <? a)%N then false
      else pystr_leb s' t'
  end.

(** [len(l)] and [range(n)]. *)
Definition len {A} (l : list A) : Z := Z.of_nat (length l).

Definition py_range (n : Z) : list Z :=
  Z.of_nat <$> seq 0 (Z.to_nat n).

(** ** Worlds, outcomes and the generation monad *)

Inductive exn : Set :=
| IndexError
| ValueError
| ZeroDivisionError.

Record world : Type := World {
  tape : nat → N;                  (* the stream selected by [random.seed] *)
  cursor : nat;                    (* number of primitive draws consumed *)
  disk : gmap pystr (list pystr)   (* path ↦ lines of the file *)
}.

Inductive outcome (A : Type) : Type :=
| Ok (a : A) (w : world)
| Raise (e : exn) (w : world).
Arguments Ok {A} a w.
Arguments Raise {A} e w.

Definition M (A : Type) : Type := world → outcome A.

Definition ret {A} (a : A) : M A := λ w, Ok a w.

Definition raise {A} (e : exn) : M A := λ w, Raise e w.

Definition bind {A B} (m : M A) (k : A → M B) : M B :=
  λ w, match m w with
       | Ok a w' => k a w'
       | Raise e w' => Raise e w'
       end.

Declare Scope gen_scope.
Delimit Scope gen_scope with gen.
Notation "x <- m ;; k" := (bind m (λ x, k))
  (at level 100, m at next level, right associativity) : gen_scope.
Notation "m ;;; k" := (bind m (λ _, k))
  (at level 100, right associativity) : gen_scope.
Local Open Scope gen_scope.

(** [for x in l: acc.append(body(x))]. *)
Fixpoint forM {A B} (l : list A) (body : A → M B) : M (list B) :=
  match l with
  | [] => ret []
  | x :: l' => y <- body x ;; ys <- forM l' body ;; ret (y :: ys)
  end.

(** [for x in l: s = body(s, x)], the loop state [s] threaded through. *)
Fixpoint foldM {A S} (body : S → A → M S) (l : list A) (s : S) : M S :=
  match l with
  | [] => ret s
  | x :: l' => s' <- body s x ;; foldM body l' s'
  end.

(** [seq[i]] for a list and an [int] index known to be non-negative. *)
Definition index {A} (l : list A) (i : Z) : M A :=
  match l !! Z.to_nat i with
  | Some x => ret x
  | None => raise IndexError
  end.

(** [chr(c)]: one code point, [ValueError] outside [0 .. 0x10FFFF]. *)
Definition chr (c : Z) : M pystr :=
  if (0 <=? c) && (c <=? 1114111) then ret [Z.to_N c] else raise ValueError.

Definition ord_A : Z := 65.

(** ** The [random] module over the tape *)

(** One primitive draw below [n] (for [0 < n]). *)
Definition randbelow (n : Z) : M Z :=
  λ w, Ok (Z.of_N (tape w (cursor w)) mod n)
          (World (tape w) (S (cursor w)) (disk w)).

(** [random.randint(a, b)]: an integer of [a .. b], [ValueError] when the
    range is empty. *)
Definition randint (a b : Z) : M Z :=
  if b <? a then raise ValueError
  else r <- randbelow (b - a + 1) ;; ret (a + r).

(** The position drawn by [random.choice(seq)]: [IndexError] on an empty
    sequence, raised before anything is drawn. *)
Definition choice_pos {A} (seq : list A) : M nat :=
  match seq with
  | [] => raise IndexError
  | _ => i <- randbelow (len seq) ;; ret (Z.to_nat i)
  end.

(** [random.choice(seq)]. *)
Definition choice {A} (seq : list A) : M A :=
  i <- choice_pos seq ;; index seq (Z.of_nat i).

(** The selection loop of [random.sample]: [k] draws without replacement
    from the remaining pool, so the result holds [k] distinct positions of
    the population. *)
Fixpoint sample_loop {A} (k : nat) (pool : list A) : M (list A) :=
  match k with
  | O => ret []
  | S k' =>
      j <- randbelow (len pool) ;;
      x <- index pool j ;;
      rest <- sample_loop k' (delete (Z.to_nat j) pool) ;;
      ret (x :: rest)
  end.

(** [random.sample(population, k)]: [ValueError] unless
    [0 <= k <= len(population)]. *)
Definition sample {A} (population : list A) (k : Z) : M (list A) :=
  if (k <? 0) || (len population <? k) then raise ValueError
  else sample_loop (Z.to_nat k) population.

(** [random.random()]: a multiple of [2^-53] in [[0, 1)]. *)
Definition random : M Q :=
  u <- randbelow (2 ^ 53) ;; ret (u # (2 ^ 53)).

(** [random.uniform(a, b)] is [a + (b - a) * random()]. *)
Definition uniform (a b : Q) : M Q :=
  r <- random ;; ret (a + (b - a) * r)%Q.

(** [os.path.join(DATA_DIR, filename)]. *)
Definition DATA_DIR : pystr := lit "data".

Definition path_join (dir file : pystr) : pystr := dir ++ lit "/" ++ file.

(** [with open(path, 'w') as f: f.write(...)]: the file holds exactly the
    lines written, whatever it held before. *)
Definition write_file (path : pystr) (lines : list pystr) : M unit :=
  λ w, Ok tt (World (tape w) (cursor w) (<[path := lines]> (disk w))).

(** [random.seed(s)]: selects the stream of seed [s] and rewinds. *)
Definition seed (stream_of_seed : Z → nat → N) (s : Z) : M unit :=
  λ w, Ok tt (World (stream_of_seed s) 0 (disk w)).

(** [l.sort(key=...)]: the stable sort, [leb] comparing the keys. *)
Fixpoint sort_insert {A} (leb : A → A → bool) (x : A) (l : list A) : list A :=
  match l with
  | [] => [x]
  | y :: l' => if leb x y then x :: y :: l' else y :: sort_insert leb x l'
  end.

Definition list_sort {A} (leb : A → A → bool) (l : list A) : list A :=
  foldr (sort_insert leb) [] l.

(** ** [generate_crewscheduling_data.py] *)

Module CrewScheduling.

Definition RANDOM_SEED : Z := 42.

Definition TEST_CONFIGS : list (Z * Z) :=
  [ (3, 10); (5, 20); (5, 50);
    (10, 100); (10, 200); (15, 500);
    (20, 1000); (25, 2000) ].

Definition MIN_FLIGHT_DURATION : Z := 60.
Definition MAX_FLIGHT_DURATION : Z := 600.
Definition TIME_HORIZON : Z := 10000.

Definition airport_codes : list pystr :=
  lit <$>
  [ "JFK"; "LAX"; "ORD"; "DFW"; "DEN"; "SFO"; "SEA"; "LAS"; "MCO"; "EWR";
    "CLT"; "PHX"; "IAH"; "MIA"; "BOS"; "MSP"; "FLL"; "DTW"; "PHL"; "LGA";
    "BWI"; "SLC"; "SAN"; "DCA"; "IAD"; "MDW"; "TPA"; "PDX"; "STL"; "HNL";
    "AUS"; "BNA"; "OAK"; "MSY"; "RDU"; "SJC"; "SMF"; "SNA"; "PIT"; "CVG";
    "CMH"; "IND"; "MCI"; "BDL"; "BUF"; "OMA"; "ONT"; "ANC"; "ABQ"; "TUS" ]%string.

Definition generate_airports (num_airports : Z) : M (list pystr) :=
  forM (py_range num_airports) (λ i,
    if i <? len airport_codes then index airport_codes i
    else ret (lit "AP" ++ format_02d (i + 1))).

Record flight : Type := Flight {
  departure_airport : pystr;
  arrival_airport : pystr;
  departure_time : Z;
  arrival_time : Z
}.

(** The sort key [(f["departure_time"], f["departure_airport"])], compared
    as a tuple. *)
Definition flight_key_leb (f g : flight) : bool :=
  (departure_time f <? departure_time g)
  || ((departure_time f =? departure_time g)
      && pystr_leb (departure_airport f) (departure_airport g)).

(** [[a for a in airports if a != airport]]. *)
Definition others (airports : list pystr) (airport : pystr) : list pystr :=
  filter (λ a, a ≠ airport) airports.

Definition generate_flight_schedule (airports : list pystr) (num_flights : Z)
  : M (list flight) :=
  flights <- forM (py_range num_flights) (λ _,
    dep_airport <- choice airports ;;
    arr_airport <- choice (others airports dep_airport) ;;
    dep_time <- randint 0 (TIME_HORIZON - MAX_FLIGHT_DURATION) ;;
    duration <- randint MIN_FLIGHT_DURATION MAX_FLIGHT_DURATION ;;
    let arr_time := dep_time + duration in
    ret (Flight dep_airport arr_airport dep_time arr_time)) ;;
  ret (list_sort flight_key_leb flights).

(** The set [has_departure] built by the first loop of
    [ensure_connectivity].  The same loop fills [has_arrival], which is
    never read. *)
Definition has_departure (flights : list flight) : gset pystr :=
  foldl (λ s f, s ∪ {[ departure_airport f ]}) ∅ flights.

(** The list [flights] is extended in place; the embedding threads it
    through the loop and returns it. *)
Definition ensure_connectivity (airports : list pystr) (flights : list flight)
  : M (list flight) :=
  let has_dep := has_departure flights in
  foldM (λ flights airport,
    if decide (airport ∉ has_dep) then
      other_airport <- choice (others airports airport) ;;
      dep_time <- randint 0 (TIME_HORIZON - MAX_FLIGHT_DURATION) ;;
      duration <- randint MIN_FLIGHT_DURATION MAX_FLIGHT_DURATION ;;
      ret (flights ++ [Flight airport other_airport dep_time (dep_time + duration)])
    else ret flights) airports flights.

(** The in-memory part of [generate_test_file]: everything before the
    output file is opened. *)
Definition generate_dataset (num_airports num_flights : Z)
  : M (list pystr * list flight) :=
  airports <- generate_airports num_airports ;;
  flights <- generate_flight_schedule airports num_flights ;;
  flights <- ensure_connectivity airports flights ;;
  ret (airports, flights).

Definition flight_line (f : flight) : pystr :=
  departure_airport f ++ lit "," ++ arrival_airport f ++ lit ","
  ++ str_of_int (departure_time f) ++ lit "," ++ str_of_int (arrival_time f).

Definition file_lines (airports : list pystr) (flights : list flight)
  : list pystr :=
  (lit "#AIRPORTS," ++ join (lit ";") airports) :: (flight_line <$> flights).

Definition file_name (num_airports num_flights : Z) : pystr :=
  lit "crewscheduling_a" ++ str_of_int num_airports ++ lit "_f"
  ++ str_of_int num_flights ++ lit ".csv".

Definition generate_test_file (num_airports num_flights : Z)
  : M (pystr * Z * Z) :=
  ds <- generate_dataset num_airports num_flights ;;
  let filename := file_name num_airports num_flights in
  let filepath := path_join DATA_DIR filename in
  write_file filepath (file_lines ds.1 ds.2) ;;;
  ret (filename, num_airports, len ds.2).

(** [main], with the stream of each seed and the configuration list as
    parameters; the console output and the creation of [DATA_DIR] are not
    modelled. *)
Definition run_batch (stream_of_seed : Z → nat → N) (configs : list (Z * Z))
  : M (list (pystr * Z * Z)) :=
  seed stream_of_seed RANDOM_SEED ;;;
  forM configs (λ c, generate_test_file c.1 c.2).

Definition main (stream_of_seed : Z → nat → N) : M (list (pystr * Z * Z)) :=
  run_batch stream_of_seed TEST_CONFIGS.

End CrewScheduling.

(** ** Iteration over a Python [set] of strings

    The order in which [for x in s] visits a set of strings is fixed by the
    hashes of the strings, which CPython salts per process
    ([PYTHONHASHSEED]).  It is a parameter of the embedding: some
    enumeration of the elements, each exactly once. *)

Record set_order : Type := SetOrder {
  iter : gset pystr → list pystr;
  iter_perm : ∀ X, iter X ≡ₚ elements X
}.

(** Two iteration orders: the enumeration [elements] and its reverse. *)
Definition forward_order : set_order :=
  SetOrder elements (λ X, reflexivity (elements X)).

Definition backward_order : set_order :=
  SetOrder (λ X, reverse (elements X)) (λ X, reverse_Permutation (elements X)).

(** ** Float helpers (over the rationals) *)

(** [int(x)]: truncation towards zero. *)
Definition int_of_float (x : Q) : Z := Z.quot (Qnum x) (Z.pos (Qden x)).

(** [max(a, b)] on floats: [b] only when it is strictly greater. *)
Definition py_max (a b : Q) : Q := if Qle_bool b a then a else b.

(** Nearest integer, ties to even. *)
Definition round_half_even (x : Q) : Z :=
  let f := Qfloor x in
  match (x - inject_Z f ?= 1 # 2)%Q with
  | Lt => f
  | Gt => f + 1
  | Eq => if Z.even f then f else f + 1
  end.

(** [f"{x:.2f}"]. *)
Definition format_2f (x : Q) : pystr :=
  let c := Z.abs (round_half_even (x * 100)) in
  (if Qle_bool 0 x then [] else lit "-")
  ++ str_of_int (c / 100) ++ lit "." ++ format_02d (c mod 100).

(** ** [generate_setcover_data.py] *)

Module SetCover.

Definition RANDOM_SEED : Z := 42.

Definition TEST_CONFIGS : list (Z * Z) :=
  [ (10, 5); (20, 10); (50, 15);
    (100, 20); (200, 30); (500, 50);
    (1000, 75); (2000, 100); (5000, 150);
    (10000, 200); (10000, 500); (50000, 500) ].

Definition MIN_CALORIES : Z := 2000.
Definition MAX_CALORIES : Z := 2500.
Definition MIN_NUTRIENTS_PER_FOOD : Z := 3.
Definition MAX_NUTRIENT_FRACTION : Q := 2 # 10.
Definition MAX_NUTRIENT_UPPER_LIMIT : Z := 10.

Definition prefixes : list pystr :=
  lit <$>
  [ "Vitamin"; "Mineral"; "Protein"; "Fiber"; "Omega";
    "Amino"; "Enzyme"; "Antioxidant"; "Electrolyte"; "Nutrient" ]%string.

Definition generate_universe (num_nutrients : Z) : M (list pystr) :=
  forM (py_range num_nutrients) (λ i,
    prefix <- index prefixes (i mod len prefixes) ;;
    suffix <- (if len prefixes <=? i then chr (ord_A + i / len prefixes)
               else ret []) ;;
    let index := i mod len prefixes + 1 in
    ret (prefix ++ suffix ++ str_of_int index)).

Record food : Type := Food {
  name : pystr;
  calories : Z;
  nutrients : list pystr
}.

Definition food_types : list pystr :=
  lit <$>
  [ "Apple"; "Banana"; "Carrot"; "Spinach"; "Chicken"; "Beef"; "Salmon";
    "Rice"; "Pasta"; "Bread"; "Milk"; "Cheese"; "Yogurt"; "Eggs"; "Tofu";
    "Broccoli"; "Tomato"; "Potato"; "Orange"; "Grape"; "Lettuce"; "Onion";
    "Garlic"; "Pepper"; "Corn"; "Beans"; "Lentils"; "Almonds"; "Walnuts" ]%string.

Definition generate_food_item (food_id : Z) (universe : list pystr)
    (min_nutrients max_nutrients : Z) : M food :=
  calories <- randint MIN_CALORIES MAX_CALORIES ;;
  num_nutrients <- randint min_nutrients max_nutrients ;;
  let num_nutrients := Z.min num_nutrients (len universe) in
  nutrients <- sample universe num_nutrients ;;
  food_type <- choice food_types ;;
  let food_name := food_type ++ lit "_" ++ str_of_int food_id in
  ret (Food food_name calories nutrients).

(** [sum(f["calories"] for f in food_items)]. *)
Definition total_calories (food_items : list food) : Z :=
  foldl (λ acc f, acc + calories f) 0 food_items.

Definition calculate_max_calories (food_items : list food)
    (universe : list pystr) : M Q :=
  let total_calories := total_calories food_items in
  fraction <- uniform (4 # 10) (6 # 10) ;;
  let max_calories := (inject_Z total_calories * fraction)%Q in
  let min_foods_estimate := len universe / 3 + 1 in
  if len food_items =? 0 then raise ZeroDivisionError
  else
    let avg_calories := (inject_Z total_calories / inject_Z (len food_items))%Q in
    let min_needed := (inject_Z min_foods_estimate * avg_calories)%Q in
    ret (py_max max_calories min_needed).

(** The set [covered] built by the first loop of [ensure_coverage]. *)
Definition covered (food_items : list food) : gset pystr :=
  foldl (λ s f, s ∪ list_to_set (nutrients f)) ∅ food_items.

(** [food["nutrients"].append(nutrient)] on the food at position [i]. *)
Definition append_nutrient (food_items : list food) (i : nat)
    (nutrient : pystr) : list food :=
  alter (λ f, Food (name f) (calories f) (nutrients f ++ [nutrient])) i
        food_items.

(** The foods are updated in place; the embedding threads the list of
    foods through the loop and returns it. *)
Definition ensure_coverage (order : set_order) (food_items : list food)
    (universe : list pystr) : M (list food) :=
  let uncovered := list_to_set universe ∖ covered food_items in
  foldM (λ food_items nutrient,
    random_food <- choice_pos food_items ;;
    ret (append_nutrient food_items random_food nutrient))
    (iter order uncovered) food_items.

Record dataset : Type := Dataset {
  universe : list pystr;
  foods : list food;
  max_calories : Q
}.

(** The in-memory part of [generate_test_file]: everything before the
    output file is opened. *)
Definition generate_dataset (order : set_order) (num_foods num_nutrients : Z)
  : M dataset :=
  universe <- generate_universe num_nutrients ;;
  let min_nutrients := MIN_NUTRIENTS_PER_FOOD in
  let max_nutrients :=
    Z.max MAX_NUTRIENT_UPPER_LIMIT
          (int_of_float (inject_Z num_nutrients * MAX_NUTRIENT_FRACTION)) in
  food_items <- forM (py_range num_foods) (λ i,
    generate_food_item (i + 1) universe min_nutrients max_nutrients) ;;
  food_items <- ensure_coverage order food_items universe ;;
  max_calories <- calculate_max_calories food_items universe ;;
  ret (Dataset universe food_items max_calories).

Definition food_line (f : food) : pystr :=
  name f ++ lit "," ++ str_of_int (calories f) ++ lit ","
  ++ join (lit ";") (nutrients f).

Definition file_lines (ds : dataset) : list pystr :=
  (lit "#UNIVERSE," ++ join (lit ";") (universe ds))
  :: (lit "#MAX_CALORIES," ++ format_2f (max_calories ds))
  :: (food_line <$> foods ds).

Definition file_name (num_foods num_nutrients : Z) : pystr :=
  lit "setcover_f" ++ str_of_int num_foods ++ lit "_n"
  ++ str_of_int num_nutrients ++ lit ".csv".

Definition generate_test_file (order : set_order) (num_foods num_nutrients : Z)
  : M (pystr * Z * Z) :=
  ds <- generate_dataset order num_foods num_nutrients ;;
  let filename := file_name num_foods num_nutrients in
  let filepath := path_join DATA_DIR filename in
  write_file filepath (file_lines ds) ;;;
  ret (filename, num_foods, num_nutrients).

(** [main], with the iteration order of sets, the stream of each seed and
    the configuration list as parameters; the console output and the
    creation of [DATA_DIR] are not modelled. *)
Definition run_batch (order : set_order) (stream_of_seed : Z → nat → N)
    (configs : list (Z * Z)) : M (list (pystr * Z * Z)) :=
  seed stream_of_seed RANDOM_SEED ;;;
  forM configs (λ c, generate_test_file order c.1 c.2).

Definition main (order : set_order) (stream_of_seed : Z → nat → N)
  : M (list (pystr * Z * Z)) :=
  run_batch order stream_of_seed TEST_CONFIGS.

End SetCover.

(** ** Vocabulary of the statements *)

(** A world in which nothing has been drawn or written; the tape reads
    zero everywhere. *)
Definition idle_world : world := World (λ _, 0%N) 0 ∅.

(** [returns m w Q]: run from [w], [m] returns normally, with a value and a
    final world that satisfy [Q]. *)
Definition returns {A} (m : M A) (w : world) (Q : A → world → Prop) : Prop :=
  match m w with
  | Ok a w' => Q a w'
  | Raise _ _ => False
  end.

(** [w'] is [w] after [n] further draws and no write. *)
Definition drawn (n : nat) (w w' : world) : Prop :=
  tape w' = tape w ∧ cursor w' = (cursor w + n)%nat ∧ disk w' = disk w.

(** The world after some draws and no write. *)
Definition draws_only (w w' : world) : Prop :=
  tape w' = tape w ∧ (cursor w ≤ cursor w')%nat ∧ disk w' = disk w.

(** [m] neither writes a file nor rewinds the tape, however it ends. *)
Definition pure_gen {A} (m : M A) : Prop :=
  ∀ w, match m w with
       | Ok _ w' => draws_only w w'
       | Raise _ w' => draws_only w w'
       end.

(** [ensures m w Q]: run from [w], if [m] returns normally then its value
    and final world satisfy [Q]. *)
Definition ensures {A} (m : M A) (w : world) (Q : A → world → Prop) : Prop :=
  match m w with
  | Ok a w' => Q a w'
  | Raise _ _ => True
  end.

(** The temporal and no-self-loop conditions on one flight. *)
Definition flight_ok (f : CrewScheduling.flight) : Prop :=
  (∃ duration,
     CrewScheduling.arrival_time f = CrewScheduling.departure_time f + duration ∧
     60 ≤ duration ≤ 600 ∧
     0 ≤ CrewScheduling.departure_time f ∧
     CrewScheduling.departure_time f + duration ≤ 10000) ∧
  CrewScheduling.departure_airport f ≠ CrewScheduling.arrival_airport f.

(** The name built at position [i] by the loop of [generate_universe]. *)
Definition nutrient_name (i : Z) : pystr :=
  default [] (SetCover.prefixes !! Z.to_nat (i mod 10))
  ++ (if 10 <=? i then [Z.to_N (ord_A + i / 10)] else [])
  ++ str_of_int (i mod 10 + 1).

(** [f'] is [f] with some of the nutrients [done] appended, each at most
    once. *)
Definition extends_food (done : list pystr) (f f' : SetCover.food) : Prop :=
  SetCover.name f' = SetCover.name f ∧
  SetCover.calories f' = SetCover.calories f ∧
  ∃ extra, SetCover.nutrients f' = SetCover.nutrients f ++ extra ∧
           NoDup extra ∧ ∀ x, x ∈ extra → x ∈ done.

(** The nutrients left uncovered by the sampled foods. *)
Definition uncovered (food_items : list SetCover.food)
    (universe : list pystr) : gset pystr :=
  list_to_set universe ∖ SetCover.covered food_items.

(** A five-nutrient universe and two foods that leave ["Fiber4"] and
    ["Omega5"] uncovered, for the examples. *)
Definition example_universe : list pystr :=
  [lit "Vitamin1"; lit "Mineral2"; lit "Protein3"; lit "Fiber4"; lit "Omega5"].

Definition example_foods : list SetCover.food :=
  [SetCover.Food (lit "Apple_1") 2000 [lit "Vitamin1"; lit "Mineral2"];
   SetCover.Food (lit "Rice_2") 2100 [lit "Mineral2"; lit "Protein3"]].

(** A generator that reads zero everywhere, whatever the seed. *)
Definition zero_stream : Z → nat → N := λ _ _, 0%N.

(** The code built at position [i] by the loop of [generate_airports]. *)
Definition airport_code (i : Z) : pystr :=
  if i <? len CrewScheduling.airport_codes
  then default [] (CrewScheduling.airport_codes !! Z.to_nat i)
  else lit "AP" ++ format_02d (i + 1).

(** The path of the file written for one configuration. *)
Definition crew_path (c : Z * Z) : pystr :=
  path_join DATA_DIR (CrewScheduling.file_name c.1 c.2).

Definition setcover_path (c : Z * Z) : pystr :=
  path_join DATA_DIR (SetCover.file_name c.1 c.2).

(** The number of nutrient entries held by a list of foods. *)
Definition nutrient_entries (food_items : list SetCover.food) : nat :=
  sum_list ((λ f, length (SetCover.nutrients f)) <$> food_items).

(** The largest universe whose names are ASCII, so that the file can be
    written whatever the encoding of the platform. *)
Definition MAX_ASCII_UNIVERSE : Z := 630.

(** The largest universe whose suffix letters are all code points. *)
Definition MAX_UNIVERSE : Z := 11140470.

(** The suffix rule in the words of the specification: cycle [k >= 1]
    carries the letter [chr('A' + k - 1)]. *)
Definition spec_nutrient_name (i : Z) : pystr :=
  let k := i / 10 in
  default [] (SetCover.prefixes !! Z.to_nat (i mod 10))
  ++ (if 1 <=? k then [Z.to_N (ord_A + k - 1)] else [])
  ++ str_of_int (i mod 10 + 1).

(** ** The generation monad *)

Lemma returns_iff {A} (m : M A) w Q :
  returns m w Q ↔ ∃ a w', m w = Ok a w' ∧ Q a w'.
Proof.
  unfold returns. destruct (m w) as [a w'|e w']; split.
  - eauto.
  - by intros (? & ? & [= -> ->] & ?).
  - done.
  - by intros (? & ? & ? & ?).
Qed.

Lemma returns_ret {A} (a : A) w (Q : A → world → Prop) :
  Q a w → returns (ret a) w Q.
Proof. done. Qed.

Lemma returns_bind {A B} (m : M A) (k : A → M B) w Q :
  returns m w (λ a w', returns (k a) w' Q) → returns (bind m k) w Q.
Proof. unfold returns, bind. by destruct (m w). Qed.

Lemma returns_mono {A} (m : M A) w (Q Q' : A → world → Prop) :
  returns m w Q → (∀ a w', Q a w' → Q' a w') → returns m w Q'.
Proof. unfold returns. destruct (m w); naive_solver. Qed.

Lemma bind_Ok {A B} (m : M A) (k : A → M B) w b w'' :
  bind m k w = Ok b w'' ↔ ∃ a w', m w = Ok a w' ∧ k a w' = Ok b w''.
Proof.
  unfold bind. destruct (m w) as [a w'|e w']; split.
  - eauto.
  - by intros (? & ? & [= -> ->] & ?).
  - done.
  - by intros (? & ? & ? & ?).
Qed.

Lemma draws_only_refl w : draws_only w w.
Proof. by repeat split. Qed.

Lemma draws_only_trans w1 w2 w3 :
  draws_only w1 w2 → draws_only w2 w3 → draws_only w1 w3.
Proof.
  intros (? & ? & ?) (? & ? & ?). repeat split; try congruence. lia.
Qed.

Lemma drawn_draws_only n w w' : drawn n w w' → draws_only w w'.
Proof. intros (? & ? & ?). repeat split; try done. lia. Qed.

(** Chains the facts about draws in the context. *)
Ltac follow_draws :=
  match goal with
  | |- draws_only ?a ?a => apply draws_only_refl
  | H : draws_only ?a ?c |- draws_only ?a ?c => exact H
  | H : draws_only ?a ?b |- draws_only ?a ?c =>
      apply (draws_only_trans a b c H); follow_draws
  end.

Ltac chain_draws :=
  cbv beta in *;
  repeat match goal with
         | H : drawn _ _ _ |- _ => apply drawn_draws_only in H
         end;
  follow_draws.

Lemma drawn_0 w : drawn 0 w w.
Proof. repeat split. simpl. lia. Qed.

Lemma drawn_add n1 n2 w1 w2 w3 :
  drawn n1 w1 w2 → drawn n2 w2 w3 → drawn (n1 + n2) w1 w3.
Proof.
  intros (? & ? & ?) (? & ? & ?). repeat split; try congruence. lia.
Qed.

(** A loop whose body is a pure function of the element. *)
Lemma forM_pure {A B} (body : A → M B) (g : A → B) (l : list A) w :
  (∀ x, x ∈ l → body x w = Ok (g x) w) →
  forM l body w = Ok (g <$> l) w.
Proof.
  induction l as [|x l IH]; intros Hb; [done|].
  cbn [forM]. unfold bind. rewrite Hb by left.
  rewrite IH; [done|]. intros y Hy. apply Hb. by right.
Qed.

(** A loop whose body returns normally and maintains [I] on the world. *)
Lemma returns_forM {A B} (body : A → M B) (I : world → Prop)
    (P : A → B → Prop) (l : list A) w :
  (∀ x w, x ∈ l → I w → returns (body x) w (λ y w', P x y ∧ I w')) →
  I w →
  returns (forM l body) w (λ ys w', Forall2 P l ys ∧ I w').
Proof.
  revert w. induction l as [|x l IH]; intros w Hb Hw.
  - by apply returns_ret.
  - cbn [forM]. apply returns_bind.
    eapply returns_mono; [apply Hb; [by left|done]|].
    intros y w1 [Hy Hw1]. apply returns_bind.
    eapply returns_mono; [apply IH; [|done]|].
    + intros z w2 Hz. apply Hb. by right.
    + intros ys w2 [Hys Hw2]. apply returns_ret. by split; [constructor|].
Qed.

(** A state-threading loop whose body returns normally and maintains [I]. *)
Lemma returns_foldM {A S} (body : S → A → M S) (I : list A → S → world → Prop)
    (l : list A) s w :
  (∀ done x todo s w, l = done ++ x :: todo → I done s w →
     returns (body s x) w (λ s' w', I (done ++ [x]) s' w')) →
  I [] s w →
  returns (foldM body l s) w (λ s' w', I l s' w').
Proof.
  intros Hb. 
  assert (∀ todo done s w, l = done ++ todo → I done s w →
    returns (foldM body todo s) w (λ s' w', I (done ++ todo) s' w')) as Hgen.
  { induction todo as [|x todo IH]; intros done s0 w0 Hl HI.
    - apply returns_ret. by rewrite app_nil_r.
    - cbn [foldM]. apply returns_bind.
      eapply returns_mono; [by apply (Hb done x todo)|].
      intros s1 w1 H1. eapply returns_mono.
      + apply (IH (done ++ [x])); [|done]. by rewrite <- app_assoc.
      + intros s2 w2. by rewrite <- app_assoc. }
  intros HI. by apply (Hgen l [] s w).
Qed.

Lemma py_range_nonpos n : n ≤ 0 → py_range n = [].
Proof. intros. unfold py_range. by replace (Z.to_nat n) with 0%nat by lia. Qed.

Lemma py_range_length n : length (py_range n) = Z.to_nat n.
Proof. unfold py_range. by rewrite length_fmap, length_seq. Qed.

Lemma py_range_lookup n i :
  0 ≤ i < n → py_range n !! Z.to_nat i = Some i.
Proof.
  intros. unfold py_range. rewrite list_lookup_fmap, lookup_seq_lt by lia.
  simpl. f_equal. lia.
Qed.

Lemma elem_of_py_range n i : i ∈ py_range n ↔ 0 ≤ i < n.
Proof.
  unfold py_range. rewrite list_elem_of_fmap. setoid_rewrite elem_of_seq.
  split; [intros (k & -> & ?); lia|].
  intros. exists (Z.to_nat i). lia.
Qed.

Lemma py_range_pos n : 0 < n → py_range n = 0 :: (Z.succ <$> py_range (n - 1)).
Proof.
  intros. unfold py_range.
  replace (Z.to_nat n) with (S (Z.to_nat (n - 1))) by lia.
  cbn [seq fmap list_fmap]. f_equal.
  rewrite <- seq_shift, <- !list_fmap_compose.
  apply list_fmap_ext. intros _ k _. simpl. lia.
Qed.

(** ** The nutrient universe *)

(** The name built by one iteration of the loop of [generate_universe]. *)
Lemma generate_universe_body i w :
  0 ≤ i < MAX_UNIVERSE →
  ∃ prefix,
    SetCover.prefixes !! Z.to_nat (i mod 10) = Some prefix ∧
    (prefix <- index SetCover.prefixes (i mod len SetCover.prefixes) ;;
     suffix <- (if len SetCover.prefixes <=? i
                then chr (ord_A + i / len SetCover.prefixes) else ret []) ;;
     ret (prefix ++ suffix ++ str_of_int (i mod len SetCover.prefixes + 1))) w
    = Ok (prefix ++ (if 10 <=? i then [Z.to_N (ord_A + i / 10)] else [])
          ++ str_of_int (i mod 10 + 1)) w.
Proof.
  intros Hi. unfold MAX_UNIVERSE in Hi.
  change (len SetCover.prefixes) with 10.
  assert (Z.to_nat (i mod 10) < length SetCover.prefixes)%nat as Hlt.
  { change (length SetCover.prefixes) with 10%nat.
    pose proof (Z.mod_pos_bound i 10). lia. }
  apply lookup_lt_is_Some_2 in Hlt as [prefix Hp].
  exists prefix. split; [done|].
  unfold bind, index. rewrite Hp. unfold ret.
  destruct (10 <=? i) eqn:Hk; [|done].
  unfold chr, ord_A.
  apply Z.leb_le in Hk.
  assert (0 ≤ i / 10 ≤ 1114046) as Hq.
  { split; [apply Z.div_pos; lia|].
    apply Z.lt_succ_r. apply Z.div_lt_upper_bound; lia. }
  replace ((0 <=? 65 + i / 10) && (65 + i / 10 <=? 1114111)) with true; [done|].
  symmetry. apply andb_true_iff. split; apply Z.leb_le; lia.
Qed.

(** The universe as a function of the position, for sizes within
    [MAX_UNIVERSE]. *)
Lemma generate_universe_fmap n w :
  n ≤ MAX_UNIVERSE →
  ∃ name : Z → pystr,
    SetCover.generate_universe n w = Ok (name <$> py_range n) w ∧
    ∀ i, 0 ≤ i < n →
      ∃ prefix, SetCover.prefixes !! Z.to_nat (i mod 10) = Some prefix ∧
        name i = prefix ++ (if 10 <=? i then [Z.to_N (ord_A + i / 10)] else [])
                 ++ str_of_int (i mod 10 + 1).
Proof.
  intros Hn.
  exists (λ i, default [] (SetCover.prefixes !! Z.to_nat (i mod 10))
               ++ (if 10 <=? i then [Z.to_N (ord_A + i / 10)] else [])
               ++ str_of_int (i mod 10 + 1)).
  split.
  - apply forM_pure. intros i Hi%elem_of_py_range.
    destruct (generate_universe_body i w) as (p & Hp & Hrun); [lia|].
    rewrite Hp. exact Hrun.
  - intros i Hi.
    destruct (generate_universe_body i w) as (p & Hp & _); [lia|].
    exists p. by rewrite Hp.
Qed.

(** C1 (as amended): [generate_universe] draws nothing and, for every size
    up to [MAX_UNIVERSE], returns one name per position [i] of [range(n)]:
    the prefix [prefixes[i mod 10]], then no suffix when [i < 10] and the one
    letter [chr(ord('A') + i div 10)] when [i >= 10], then the index
    [i mod 10 + 1].  In particular the 11th entry of [generate_universe(12)]
    is ["VitaminB1"]. *)
Theorem generate_universe_naming n w :
  n ≤ MAX_UNIVERSE →
  ∃ u, SetCover.generate_universe n w = Ok u w ∧
       len u = Z.max 0 n ∧
       (∀ i, 0 ≤ i < n →
          ∃ prefix, SetCover.prefixes !! Z.to_nat (i mod 10) = Some prefix ∧
            u !! Z.to_nat i =
              Some (prefix
                    ++ (if 10 <=? i then [Z.to_N (ord_A + i / 10)] else [])
                    ++ str_of_int (i mod 10 + 1))) ∧
       (n = 12 → u !! 10%nat = Some (lit "VitaminB1")).
Proof.
  intros Hn. destruct (generate_universe_fmap n w Hn) as (name & Hrun & Hname).
  exists (name <$> py_range n). split; [done|]. split; [|split].
  - unfold len. rewrite length_fmap, py_range_length. lia.
  - intros i Hi. destruct (Hname i Hi) as (p & Hp & Hnm).
    exists p. split; [done|].
    by rewrite list_lookup_fmap, py_range_lookup, <- Hnm.
  - intros ->. destruct (Hname 10) as (p & Hp & Hnm); [lia|].
    change (py_range 12 !! 10%nat) with (Some 10) || idtac.
    rewrite list_lookup_fmap. change 10%nat with (Z.to_nat 10).
    rewrite py_range_lookup by lia. simpl. rewrite Hnm.
    vm_compute in Hp. injection Hp as <-. by vm_compute.
Qed.

Lemma generate_universe_naming_witness :
  ∃ u, SetCover.generate_universe 12 idle_world = Ok u idle_world ∧
       len u = Z.max 0 12 ∧
       (∀ i, 0 ≤ i < 12 →
          ∃ prefix, SetCover.prefixes !! Z.to_nat (i mod 10) = Some prefix ∧
            u !! Z.to_nat i =
              Some (prefix
                    ++ (if 10 <=? i then [Z.to_N (ord_A + i / 10)] else [])
                    ++ str_of_int (i mod 10 + 1))) ∧
       (12 = 12 → u !! 10%nat = Some (lit "VitaminB1")).
Proof. apply (generate_universe_naming 12 idle_world). unfold MAX_UNIVERSE. lia. Defined.

(** C1 (as stated) fails: the suffix of the first overflow cycle is ['B'],
    not ['A']. *)
Lemma generate_universe_suffix_counterexample :
  ∃ u, SetCover.generate_universe 12 idle_world = Ok u idle_world ∧
       u !! 10%nat ≠ Some (spec_nutrient_name 10) ∧
       spec_nutrient_name 10 = lit "VitaminA1" ∧
       u !! 10%nat = Some (lit "VitaminB1").
Proof.
  eexists. split; [by vm_compute|]. by vm_compute.
Qed.

(** ** Partial-correctness rules *)

Lemma ensures_ret {A} (a : A) w (Q : A → world → Prop) :
  Q a w → ensures (ret a) w Q.
Proof. done. Qed.

Lemma ensures_bind {A B} (m : M A) (k : A → M B) w Q :
  ensures m w (λ a w', ensures (k a) w' Q) → ensures (bind m k) w Q.
Proof. unfold ensures, bind. by destruct (m w). Qed.

Lemma ensures_mono {A} (m : M A) w (Q Q' : A → world → Prop) :
  ensures m w Q → (∀ a w', Q a w' → Q' a w') → ensures m w Q'.
Proof. unfold ensures. destruct (m w); naive_solver. Qed.

Lemma ensures_Ok {A} (m : M A) w Q a w' :
  ensures m w Q → m w = Ok a w' → Q a w'.
Proof. unfold ensures. intros H E. by rewrite E in H. Qed.

Lemma returns_ensures {A} (m : M A) w Q : returns m w Q → ensures m w Q.
Proof. unfold returns, ensures. by destruct (m w). Qed.

Lemma returns_split {A} (m : M A) w (Q : A → world → Prop) :
  returns m w (λ _ _, True) → ensures m w Q → returns m w Q.
Proof. unfold returns, ensures. by destruct (m w). Qed.

Lemma ensures_forM {A B} (body : A → M B) (I : world → Prop)
    (P : A → B → Prop) (l : list A) w :
  (∀ x w, x ∈ l → I w → ensures (body x) w (λ y w', P x y ∧ I w')) →
  I w →
  ensures (forM l body) w (λ ys w', Forall2 P l ys ∧ I w').
Proof.
  revert w. induction l as [|x l IH]; intros w Hb Hw.
  - by apply ensures_ret.
  - cbn [forM]. apply ensures_bind.
    eapply ensures_mono; [apply Hb; [by left|done]|].
    intros y w1 [Hy Hw1]. apply ensures_bind.
    eapply ensures_mono; [apply IH; [|done]|].
    + intros z w2 Hz. apply Hb. by right.
    + intros ys w2 [Hys Hw2]. apply ensures_ret. by split; [constructor|].
Qed.

Lemma ensures_foldM {A S} (body : S → A → M S) (I : list A → S → world → Prop)
    (l : list A) s w :
  (∀ done x todo s w, l = done ++ x :: todo → I done s w →
     ensures (body s x) w (λ s' w', I (done ++ [x]) s' w')) →
  I [] s w →
  ensures (foldM body l s) w (λ s' w', I l s' w').
Proof.
  intros Hb.
  assert (∀ todo done s w, l = done ++ todo → I done s w →
    ensures (foldM body todo s) w (λ s' w', I (done ++ todo) s' w')) as Hgen.
  { induction todo as [|x todo IH]; intros done s0 w0 Hl HI.
    - apply ensures_ret. by rewrite app_nil_r.
    - cbn [foldM]. apply ensures_bind.
      eapply ensures_mono; [by apply (Hb done x todo)|].
      intros s1 w1 H1. eapply ensures_mono.
      + apply (IH (done ++ [x])); [|done]. by rewrite <- app_assoc.
      + intros s2 w2. by rewrite <- app_assoc. }
  intros HI. by apply (Hgen l [] s w).
Qed.

(** ** The [random] primitives *)

Lemma returns_randbelow n w :
  0 < n → returns (randbelow n) w (λ r w', 0 ≤ r < n ∧ drawn 1 w w').
Proof.
  intros Hn. unfold returns, randbelow. cbv beta iota. split.
  - by apply Z.mod_pos_bound.
  - unfold drawn. simpl. repeat split. lia.
Qed.

Lemma returns_randint a b w :
  a ≤ b → returns (randint a b) w (λ r w', a ≤ r ≤ b ∧ drawn 1 w w').
Proof.
  intros Hab. unfold randint.
  destruct (b <? a) eqn:Hlt; [apply Z.ltb_lt in Hlt; lia|].
  apply returns_bind.
  eapply returns_mono; [apply returns_randbelow; lia|].
  intros r w' [Hr Hw]. apply returns_ret. split; [lia|done].
Qed.

Lemma returns_choice_pos {A} (seq : list A) w :
  seq ≠ [] →
  returns (choice_pos seq) w (λ i w', (i < length seq)%nat ∧ drawn 1 w w').
Proof.
  intros Hne. destruct seq as [|x seq]; [done|].
  unfold choice_pos. apply returns_bind.
  eapply returns_mono; [apply returns_randbelow; unfold len; simpl; lia|].
  intros r w' [Hr Hw]. apply returns_ret. split; [|done].
  unfold len in Hr. lia.
Qed.

Lemma returns_choice {A} (seq : list A) w :
  seq ≠ [] →
  returns (choice seq) w (λ x w', x ∈ seq ∧ drawn 1 w w').
Proof.
  intros Hne. unfold choice. apply returns_bind.
  eapply returns_mono; [by apply returns_choice_pos|].
  intros i w' [Hi Hw]. unfold index. rewrite Nat2Z.id.
  destruct (lookup_lt_is_Some_2 seq i Hi) as [x Hx]. rewrite Hx.
  apply returns_ret. split; [|done]. by eapply list_elem_of_lookup_2.
Qed.

(** ** The flight network *)

Lemma elem_of_has_departure_acc (flights : list CrewScheduling.flight)
    (acc : gset pystr) a :
  a ∈ foldl (λ s f, s ∪ {[ CrewScheduling.departure_airport f ]}) acc flights
  ↔ a ∈ acc ∨ ∃ f, f ∈ flights ∧ CrewScheduling.departure_airport f = a.
Proof.
  revert acc. induction flights as [|f flights IH]; intros acc; simpl.
  - split; [by left|]. intros [?|(f & Hf & _)]; [done|]. by inversion Hf.
  - rewrite IH, elem_of_union, elem_of_singleton. split.
    + intros [[?| ->]|(g & Hg & <-)]; [by left| |].
      * right. exists f. split; [by left|done].
      * right. exists g. split; [by right|done].
    + intros [?|(g & Hg & <-)]; [by left; left|].
      apply elem_of_cons in Hg as [-> |Hg]; [by left; right|].
      right. by exists g.
Qed.

Lemma elem_of_has_departure flights a :
  a ∈ CrewScheduling.has_departure flights
  ↔ ∃ f, f ∈ flights ∧ CrewScheduling.departure_airport f = a.
Proof.
  unfold CrewScheduling.has_departure. rewrite elem_of_has_departure_acc.
  split; [intros [?|?]; [set_solver|done]|by right].
Qed.

Lemma elem_of_others airports a b :
  b ∈ CrewScheduling.others airports a ↔ b ≠ a ∧ b ∈ airports.
Proof. unfold CrewScheduling.others. by rewrite list_elem_of_filter. Qed.

Lemma others_nonempty airports a :
  (∃ b c, b ∈ airports ∧ c ∈ airports ∧ b ≠ c) →
  CrewScheduling.others airports a ≠ [].
Proof.
  intros (b & c & Hb & Hc & Hbc) Hnil.
  destruct (decide (b = a)) as [-> |Hba].
  - assert (c ∈ CrewScheduling.others airports a) as Hin
      by (apply elem_of_others; split; [congruence|done]).
    rewrite Hnil in Hin. by inversion Hin.
  - assert (b ∈ CrewScheduling.others airports a) as Hin
      by by apply elem_of_others.
    rewrite Hnil in Hin. by inversion Hin.
Qed.

Lemma two_distinct_of_NoDup (airports : list pystr) :
  NoDup airports → (2 ≤ length airports)%nat →
  ∃ b c, b ∈ airports ∧ c ∈ airports ∧ b ≠ c.
Proof.
  intros Hnd Hlen. destruct airports as [|b [|c l]]; simpl in Hlen; try lia.
  exists b, c. split; [by left|]. split; [right; by left|].
  apply NoDup_cons in Hnd as [Hb _]. intros ->. apply Hb. by left.
Qed.

(** The flight drawn for one airport: the three draws of the sampler and of
    the repair loop, after the origin is fixed.  [g] is what the caller does
    with the flight. *)
Lemma ensures_new_flight {B} (g : CrewScheduling.flight → B) airports origin w :
  ensures
    (other_airport <- choice (CrewScheduling.others airports origin) ;;
     dep_time <- randint 0 (CrewScheduling.TIME_HORIZON
                            - CrewScheduling.MAX_FLIGHT_DURATION) ;;
     duration <- randint CrewScheduling.MIN_FLIGHT_DURATION
                         CrewScheduling.MAX_FLIGHT_DURATION ;;
     ret (g (CrewScheduling.Flight origin other_airport dep_time
               (dep_time + duration)))) w
    (λ b w', ∃ f, b = g f ∧ flight_ok f
                  ∧ CrewScheduling.departure_airport f = origin
                  ∧ drawn 3 w w').
Proof.
  apply ensures_bind.
  destruct (decide (CrewScheduling.others airports origin = [])) as [-> |Hne];
    [done|].
  apply returns_ensures.
  eapply returns_mono; [by apply returns_choice|].
  intros other w1 [Hother Hw1]. cbv beta.
  apply elem_of_others in Hother as [Hne' _].
  apply ensures_bind, returns_ensures.
  eapply returns_mono; [by apply returns_randint|].
  intros dep_time w2 [Hdep Hw2]. cbv beta.
  apply ensures_bind, returns_ensures.
  eapply returns_mono; [by apply returns_randint|].
  intros duration w3 [Hdur Hw3]. cbv beta.
  apply ensures_ret. eexists. split; [done|]. split; [|split; [done|]].
  - split; [|done]. exists duration. simpl.
    unfold CrewScheduling.TIME_HORIZON, CrewScheduling.MAX_FLIGHT_DURATION,
      CrewScheduling.MIN_FLIGHT_DURATION in *. lia.
  - apply (drawn_add 1 2 w w1 w3); [done|].
    by apply (drawn_add 1 1 w1 w2 w3).
Qed.

Lemma returns_new_flight {B} (g : CrewScheduling.flight → B) airports origin w :
  (∃ b c, b ∈ airports ∧ c ∈ airports ∧ b ≠ c) →
  returns
    (other_airport <- choice (CrewScheduling.others airports origin) ;;
     dep_time <- randint 0 (CrewScheduling.TIME_HORIZON
                            - CrewScheduling.MAX_FLIGHT_DURATION) ;;
     duration <- randint CrewScheduling.MIN_FLIGHT_DURATION
                         CrewScheduling.MAX_FLIGHT_DURATION ;;
     ret (g (CrewScheduling.Flight origin other_airport dep_time
               (dep_time + duration)))) w
    (λ _ _, True).
Proof.
  intros Htwo. apply returns_bind.
  eapply returns_mono; [by apply returns_choice, others_nonempty|].
  intros other w1 _. cbv beta. apply returns_bind.
  eapply returns_mono; [by apply returns_randint|].
  intros dep_time w2 _. cbv beta. apply returns_bind.
  eapply returns_mono; [by apply returns_randint|].
  intros duration w3 _. by apply returns_ret.
Qed.

Lemma sort_insert_perm {A} (leb : A → A → bool) x l :
  sort_insert leb x l ≡ₚ x :: l.
Proof.
  induction l as [|y l IH]; simpl; [done|].
  destruct (leb x y); [done|]. rewrite IH. apply Permutation_swap.
Qed.

Lemma list_sort_perm {A} (leb : A → A → bool) l : list_sort leb l ≡ₚ l.
Proof.
  induction l as [|x l IH]; simpl; [done|].
  by rewrite sort_insert_perm, IH.
Qed.

Lemma Forall2_snd {A B} (P : B → Prop) (l : list A) (ys : list B) :
  Forall2 (λ _ y, P y) l ys → Forall P ys.
Proof. induction 1; by constructor. Qed.

(** The sampler: every sampled flight is well formed. *)
Lemma ensures_generate_flight_schedule airports num_flights w :
  ensures (CrewScheduling.generate_flight_schedule airports num_flights) w
    (λ flights w', Forall flight_ok flights ∧ draws_only w w').
Proof.
  unfold CrewScheduling.generate_flight_schedule. apply ensures_bind.
  eapply ensures_mono.
  - apply (ensures_forM _ (draws_only w) (λ _ f, flight_ok f));
      [|apply draws_only_refl].
    intros _ w1 _ Hw1. apply ensures_bind.
    destruct (decide (airports = [])) as [-> |Hne]; [done|].
    apply returns_ensures. eapply returns_mono; [by apply returns_choice|].
    intros dep w2 [_ Hw2]. cbv beta.
    eapply ensures_mono; [apply (ensures_new_flight (λ f, f))|].
    intros f w3 (f' & -> & Hok & _ & Hw3). split; [done|].
    chain_draws.
  - intros flights w' [Hall Hw']. apply ensures_ret. split; [|done].
    rewrite list_sort_perm. by eapply Forall2_snd.
Qed.

Lemma returns_generate_flight_schedule airports num_flights w :
  (∃ b c, b ∈ airports ∧ c ∈ airports ∧ b ≠ c) →
  returns (CrewScheduling.generate_flight_schedule airports num_flights) w
    (λ _ _, True).
Proof.
  intros Htwo. unfold CrewScheduling.generate_flight_schedule.
  apply returns_bind. eapply returns_mono.
  - apply (returns_forM _ (λ _, True) (λ _ _, True)); [|done].
    intros _ w1 _ _. apply returns_bind.
    eapply returns_mono.
    + apply returns_choice. destruct Htwo as (b & _ & Hb & _).
      intros ->. by inversion Hb.
    + intros dep w2 _. cbv beta.
      eapply returns_mono; [by apply (returns_new_flight (λ f, f))|done].
  - intros flights w' _. by apply returns_ret.
Qed.

Lemma generate_flight_schedule_none airports num_flights w :
  num_flights ≤ 0 →
  CrewScheduling.generate_flight_schedule airports num_flights w = Ok [] w.
Proof.
  intros. unfold CrewScheduling.generate_flight_schedule.
  by rewrite py_range_nonpos.
Qed.

(** The repair: the flights are extended by one well-formed flight per
    airport that had no departure, in the order of the airport list. *)
Lemma ensures_ensure_connectivity airports flights w :
  ensures (CrewScheduling.ensure_connectivity airports flights) w
    (λ flights' w', ∃ added,
       flights' = flights ++ added ∧
       CrewScheduling.departure_airport <$> added
         = filter (λ a, a ∉ CrewScheduling.has_departure flights) airports ∧
       Forall flight_ok added ∧
       draws_only w w').
Proof.
  unfold CrewScheduling.ensure_connectivity.
  eapply ensures_mono.
  - apply (ensures_foldM _ (λ done flights' w', ∃ added,
       flights' = flights ++ added ∧
       CrewScheduling.departure_airport <$> added
         = filter (λ a, a ∉ CrewScheduling.has_departure flights) done ∧
       Forall flight_ok added ∧
       draws_only w w')).
    + intros done airport todo fl w1 _ (added & -> & Hdep & Hok & Hw1).
      case_decide as Hin.
      * eapply ensures_mono;
          [apply (ensures_new_flight (λ f, (flights ++ added) ++ [f]))|].
        intros fl' w2 (f & -> & Hf & Hfo & Hw2).
        exists (added ++ [f]). split; [by rewrite app_assoc|].
        split; [|split].
        -- rewrite fmap_app, filter_app, Hdep. f_equal.
           rewrite filter_cons_True by done. simpl. by rewrite Hfo.
        -- apply Forall_app. split; [done|]. by constructor.
        -- chain_draws.
      * apply ensures_ret. exists added. split; [done|]. split; [|done].
        rewrite filter_app, filter_cons_False, filter_nil, app_nil_r; [done|].
        by intros ?.
    + exists []. rewrite app_nil_r.
      split; [done|]. split; [done|]. split; [done|]. apply draws_only_refl.
  - done.
Qed.

Lemma returns_ensure_connectivity airports flights w :
  (∃ b c, b ∈ airports ∧ c ∈ airports ∧ b ≠ c) →
  returns (CrewScheduling.ensure_connectivity airports flights) w (λ _ _, True).
Proof.
  intros Htwo. unfold CrewScheduling.ensure_connectivity.
  eapply returns_mono.
  - apply (returns_foldM _ (λ _ _ _, True)); [|done].
    intros _ airport _ fl w1 _ _. case_decide.
    + by apply (returns_new_flight (λ f, fl ++ [f])).
    + by apply returns_ret.
  - done.
Qed.

Lemma generate_airports_fmap n w :
  ∃ code : Z → pystr,
    CrewScheduling.generate_airports n w = Ok (code <$> py_range n) w ∧
    ∀ i, 0 ≤ i < 50 →
      CrewScheduling.airport_codes !! Z.to_nat i = Some (code i).
Proof.
  exists (λ i, if i <? 50
               then default [] (CrewScheduling.airport_codes !! Z.to_nat i)
               else lit "AP" ++ format_02d (i + 1)).
  assert (∀ i, 0 ≤ i < 50 →
            is_Some (CrewScheduling.airport_codes !! Z.to_nat i)) as Hsome.
  { intros i Hi. apply lookup_lt_is_Some_2.
    change (length CrewScheduling.airport_codes) with 50%nat. lia. }
  split.
  - apply forM_pure. intros i Hi%elem_of_py_range. cbv beta.
    change (len CrewScheduling.airport_codes) with 50.
    destruct (i <? 50) eqn:Hlt; [|done].
    apply Z.ltb_lt in Hlt. unfold index.
    destruct (Hsome i) as [c Hc]; [lia|]. rewrite Hc. reflexivity.
  - intros i Hi. destruct (i <? 50) eqn:Hlt; [|apply Z.ltb_ge in Hlt; lia].
    destruct (Hsome i) as [c Hc]; [lia|]. rewrite Hc. reflexivity.
Qed.

Lemma generate_airports_two_distinct n w :
  2 ≤ n →
  ∃ airports, CrewScheduling.generate_airports n w = Ok airports w ∧
    ∃ b c, b ∈ airports ∧ c ∈ airports ∧ b ≠ c.
Proof.
  intros Hn. destruct (generate_airports_fmap n w) as (code & Hrun & Hcode).
  exists (code <$> py_range n). split; [done|].
  exists (code 0), (code 1).
  split; [|split].
  - apply list_elem_of_fmap. exists 0. split; [done|]. apply elem_of_py_range. lia.
  - apply list_elem_of_fmap. exists 1. split; [done|]. apply elem_of_py_range. lia.
  - assert (CrewScheduling.airport_codes !! 0%nat = Some (code 0)) as H0
      by (apply (Hcode 0); lia).
    assert (CrewScheduling.airport_codes !! 1%nat = Some (code 1)) as H1
      by (apply (Hcode 1); lia).
    vm_compute in H0, H1. congruence.
Qed.

Lemma generate_airports_nonpos n w :
  n ≤ 0 → CrewScheduling.generate_airports n w = Ok [] w.
Proof.
  intros. unfold CrewScheduling.generate_airports. by rewrite py_range_nonpos.
Qed.

(** The in-memory pipeline on at least two airports returns normally, having
    only drawn from the tape. *)
Lemma returns_crew_generate_dataset n m w :
  2 ≤ n →
  returns (CrewScheduling.generate_dataset n m) w (λ _ w', draws_only w w').
Proof.
  intros Hn. unfold CrewScheduling.generate_dataset.
  destruct (generate_airports_two_distinct n w Hn) as (airports & Hrun & Htwo).
  apply returns_bind. unfold returns at 1. rewrite Hrun.
  apply returns_bind.
  eapply returns_mono.
  { apply returns_split; [by apply returns_generate_flight_schedule|].
    apply ensures_generate_flight_schedule. }
  intros flights w1 [_ Hw1]. cbv beta. apply returns_bind.
  eapply returns_mono.
  { apply returns_split; [by apply returns_ensure_connectivity|].
    apply ensures_ensure_connectivity. }
  intros flights' w2 (added & _ & _ & _ & Hw2). cbv beta.
  apply returns_ret. by eapply draws_only_trans.
Qed.

(** C3: on a duplicate-free list of at least two airports, the repair
    returns normally and every airport is then the origin of a flight. *)
Theorem ensure_connectivity_every_airport_departs airports flights w :
  NoDup airports → (2 ≤ length airports)%nat →
  ∃ flights' w',
    CrewScheduling.ensure_connectivity airports flights w = Ok flights' w' ∧
    ∀ a, a ∈ airports →
      ∃ f, f ∈ flights' ∧ CrewScheduling.departure_airport f = a.
Proof.
  intros Hnd Hlen.
  pose proof (two_distinct_of_NoDup airports Hnd Hlen) as Htwo.
  pose proof (returns_split _ w _
                (returns_ensure_connectivity airports flights w Htwo)
                (ensures_ensure_connectivity airports flights w)) as Hret.
  apply returns_iff in Hret
    as (flights' & w' & Hrun & added & -> & Hadded & _ & _).
  exists (flights ++ added), w'. split; [done|].
  intros a Ha.
  destruct (decide (a ∈ CrewScheduling.has_departure flights)) as [Hin|Hout].
  - apply elem_of_has_departure in Hin as (f & Hf & <-).
    exists f. split; [|done]. apply elem_of_app. by left.
  - assert (a ∈ CrewScheduling.departure_airport <$> added) as Hin.
    { rewrite Hadded. by apply list_elem_of_filter. }
    apply list_elem_of_fmap in Hin as (f & -> & Hf).
    exists f. split; [|done]. apply elem_of_app. by right.
Qed.

Lemma ensure_connectivity_every_airport_departs_witness :
  ∃ flights' w',
    CrewScheduling.ensure_connectivity
      [lit "JFK"; lit "LAX"; lit "ORD"]
      [CrewScheduling.Flight (lit "LAX") (lit "JFK") 120 300] idle_world
    = Ok flights' w' ∧
    ∀ a, a ∈ [lit "JFK"; lit "LAX"; lit "ORD"] →
      ∃ f, f ∈ flights' ∧ CrewScheduling.departure_airport f = a.
Proof.
  apply (ensure_connectivity_every_airport_departs
           [lit "JFK"; lit "LAX"; lit "ORD"]
           [CrewScheduling.Flight (lit "LAX") (lit "JFK") 120 300] idle_world).
  - apply (bool_decide_unpack _). vm_compute. exact I.
  - simpl. lia.
Defined.

(** C9: the repair only appends.  Whenever it returns, the flights it was
    given are a prefix of the result, unchanged and in their order, and the
    flights after them are the repair's, one per airport without a
    departure, in the order of the airport list. *)
Theorem ensure_connectivity_appends airports flights w flights' w' :
  CrewScheduling.ensure_connectivity airports flights w = Ok flights' w' →
  ∃ added,
    flights' = flights ++ added ∧
    CrewScheduling.departure_airport <$> added
      = filter (λ a, a ∉ CrewScheduling.has_departure flights) airports.
Proof.
  intros Hrun.
  pose proof (ensures_Ok _ _ _ _ _
                (ensures_ensure_connectivity airports flights w) Hrun)
    as (added & Heq & Hdep & _).
  by exists added.
Qed.

Lemma ensure_connectivity_appends_witness :
  ∃ flights' w',
    CrewScheduling.ensure_connectivity
      [lit "JFK"; lit "LAX"; lit "ORD"]
      [CrewScheduling.Flight (lit "LAX") (lit "JFK") 9000 9300] idle_world
    = Ok flights' w' ∧
    ∃ added,
      flights' = [CrewScheduling.Flight (lit "LAX") (lit "JFK") 9000 9300]
                 ++ added ∧
      CrewScheduling.departure_airport <$> added
        = filter (λ a, a ∉ CrewScheduling.has_departure
                         [CrewScheduling.Flight (lit "LAX") (lit "JFK") 9000 9300])
                 [lit "JFK"; lit "LAX"; lit "ORD"].
Proof.
  eexists _, _. split.
  - vm_compute. reflexivity.
  - eapply (ensure_connectivity_appends
             [lit "JFK"; lit "LAX"; lit "ORD"]
             [CrewScheduling.Flight (lit "LAX") (lit "JFK") 9000 9300]
             idle_world).
    vm_compute. reflexivity.
Defined.

(** The flights of a generated dataset, sampled or repair-added, are all
    well formed. *)
Lemma ensures_crew_generate_dataset n m w :
  ensures (CrewScheduling.generate_dataset n m) w
    (λ ds _, Forall flight_ok ds.2).
Proof.
  unfold CrewScheduling.generate_dataset. apply ensures_bind.
  destruct (generate_airports_fmap n w) as (code & Hrun & _).
  unfold ensures at 1. rewrite Hrun. apply ensures_bind.
  eapply ensures_mono; [apply ensures_generate_flight_schedule|].
  intros flights w1 [Hok _]. cbv beta. apply ensures_bind.
  eapply ensures_mono; [apply ensures_ensure_connectivity|].
  intros flights' w2 (added & -> & _ & Hadded & _). cbv beta.
  apply ensures_ret. simpl. apply Forall_app. by split.
Qed.

(** C7: every flight of a generated dataset, whether sampled or appended by
    the repair, arrives [duration] after it departs for some duration of
    [60 .. 600], departs at or after 0, arrives at or before 10000, and
    does not return to its origin. *)
Theorem emitted_flights_well_formed n m w ds w' :
  CrewScheduling.generate_dataset n m w = Ok ds w' →
  Forall flight_ok ds.2.
Proof.
  intros Hrun.
  exact (ensures_Ok _ _ _ _ _ (ensures_crew_generate_dataset n m w) Hrun).
Qed.

Lemma emitted_flights_well_formed_witness :
  ∃ ds w',
    CrewScheduling.generate_dataset 3 4 idle_world = Ok ds w' ∧
    length ds.2 = 6%nat ∧
    Forall flight_ok ds.2.
Proof.
  eexists _, _. split; [vm_compute; reflexivity|]. split; [reflexivity|].
  eapply (emitted_flights_well_formed 3 4 idle_world).
  vm_compute. reflexivity.
Defined.

(** C5: five airports and zero requested flights.  The sampler contributes
    nothing and draws nothing; the repair then appends exactly five
    flights, one from each airport, in the order of the airport list. *)
Theorem five_airports_zero_flights w :
  ∃ airports flights w',
    CrewScheduling.generate_dataset 5 0 w = Ok (airports, flights) w' ∧
    airports = [lit "JFK"; lit "LAX"; lit "ORD"; lit "DFW"; lit "DEN"] ∧
    CrewScheduling.generate_flight_schedule airports 0 w = Ok [] w ∧
    length flights = 5%nat ∧
    CrewScheduling.departure_airport <$> flights = airports.
Proof.
  assert (CrewScheduling.generate_airports 5 w
          = Ok [lit "JFK"; lit "LAX"; lit "ORD"; lit "DFW"; lit "DEN"] w)
    as Hair by done.
  set (airports := [lit "JFK"; lit "LAX"; lit "ORD"; lit "DFW"; lit "DEN"])
    in *.
  assert (∃ b c, b ∈ airports ∧ c ∈ airports ∧ b ≠ c) as Htwo.
  { exists (lit "JFK"), (lit "LAX"). split; [by left|].
    split; [right; by left|done]. }
  pose proof (returns_split _ w _
                (returns_ensure_connectivity airports [] w Htwo)
                (ensures_ensure_connectivity airports [] w)) as Hret.
  apply returns_iff in Hret as (flights & w' & Hrun & added & -> & Hdep & _).
  exists airports, added, w'. split; [|split; [done|split; [done|]]].
  - unfold CrewScheduling.generate_dataset, bind.
    rewrite Hair, generate_flight_schedule_none by lia.
    by rewrite Hrun.
  - assert (CrewScheduling.departure_airport <$> added = airports) as Heq.
    { rewrite Hdep. by vm_compute. }
    split; [|done]. by rewrite <- (length_fmap CrewScheduling.departure_airport), Heq.
Qed.

(** ** Sampling without replacement *)

Lemma submseteq_NoDup {A} (l k : list A) : l ⊆+ k → NoDup k → NoDup l.
Proof.
  intros (k' & Hk)%submseteq_Permutation Hnd. rewrite Hk in Hnd.
  by apply NoDup_app in Hnd as (? & _ & _).
Qed.

Lemma returns_sample_loop {A} (k : nat) (pool : list A) w :
  (k ≤ length pool)%nat →
  returns (sample_loop k pool) w
    (λ l w', l ⊆+ pool ∧ length l = k ∧ drawn k w w').
Proof.
  revert pool w. induction k as [|k IH]; intros pool w Hk.
  - apply returns_ret. split; [apply submseteq_nil_l|]. split; [done|].
    apply drawn_0.
  - cbn [sample_loop]. apply returns_bind.
    eapply returns_mono; [apply returns_randbelow; unfold len; lia|].
    intros j w1 [Hj Hw1]. cbv beta. unfold len in Hj.
    destruct (lookup_lt_is_Some_2 pool (Z.to_nat j)) as [x Hx]; [lia|].
    apply returns_bind. unfold returns at 1, index. rewrite Hx.
    cbv beta iota. unfold ret at 1. apply returns_bind.
    eapply returns_mono.
    + apply IH. rewrite length_delete by eauto. lia.
    + intros rest w2 (Hsub & Hlen & Hw2). apply returns_ret.
      split; [|split].
      * rewrite (delete_Permutation pool _ x Hx). by apply submseteq_skip.
      * simpl. by rewrite Hlen.
      * by apply (drawn_add 1 k w w1 w2).
Qed.

Lemma returns_sample {A} (population : list A) (k : Z) w :
  0 ≤ k ≤ len population →
  returns (sample population k) w
    (λ l w', l ⊆+ population ∧ len l = k ∧ drawn (Z.to_nat k) w w').
Proof.
  intros Hk. unfold sample.
  replace ((k <? 0) || (len population <? k)) with false.
  - eapply returns_mono; [apply returns_sample_loop; unfold len in Hk; lia|].
    intros l w' (? & Hlen & ?). split; [done|]. split; [|done].
    unfold len. lia.
  - symmetry. apply orb_false_iff. split; apply Z.ltb_ge; lia.
Qed.

Lemma ensures_sample {A} (population : list A) (k : Z) w :
  ensures (sample population k) w
    (λ l w', l ⊆+ population ∧ draws_only w w').
Proof.
  unfold sample.
  destruct ((k <? 0) || (len population <? k)) eqn:Hk; [done|].
  apply orb_false_iff in Hk as [Hk1%Z.ltb_ge Hk2%Z.ltb_ge].
  apply returns_ensures.
  eapply returns_mono; [apply returns_sample_loop; unfold len in Hk2; lia|].
  intros l w' (? & _ & ?). split; [done|]. by eapply drawn_draws_only.
Qed.

(** ** Sampled foods *)

Lemma ensures_generate_food_item food_id universe min_nutrients max_nutrients w :
  ensures
    (SetCover.generate_food_item food_id universe min_nutrients max_nutrients) w
    (λ f w', SetCover.nutrients f ⊆+ universe ∧ draws_only w w').
Proof.
  unfold SetCover.generate_food_item.
  apply ensures_bind. unfold randint at 1.
  destruct (SetCover.MAX_CALORIES <? SetCover.MIN_CALORIES) eqn:Hc; [done|].
  apply returns_ensures, returns_bind.
  eapply returns_mono; [by apply returns_randbelow|].
  intros r w1 [_ Hw1]. apply returns_ret. cbv beta.
  apply ensures_bind. unfold randint at 1.
  destruct (max_nutrients <? min_nutrients) eqn:Hm; [done|].
  apply Z.ltb_ge in Hm.
  apply returns_ensures, returns_bind.
  eapply returns_mono; [apply returns_randbelow; lia|].
  intros r' w2 [_ Hw2]. apply returns_ret. cbv beta.
  apply ensures_bind.
  eapply ensures_mono; [apply ensures_sample|].
  intros nutrients w3 [Hsub Hw3]. cbv beta.
  apply ensures_bind, returns_ensures.
  eapply returns_mono; [by apply returns_choice|].
  intros ft w4 [_ Hw4]. apply ensures_ret. simpl. split; [done|].
  chain_draws.
Qed.

Lemma returns_generate_food_item food_id universe min_nutrients max_nutrients w :
  0 ≤ min_nutrients ≤ max_nutrients →
  returns
    (SetCover.generate_food_item food_id universe min_nutrients max_nutrients) w
    (λ f _, SetCover.nutrients f ⊆+ universe
            ∧ len (SetCover.nutrients f) ≤ max_nutrients).
Proof.
  intros Hm. unfold SetCover.generate_food_item.
  apply returns_bind.
  eapply returns_mono; [by apply returns_randint|].
  intros calories w1 _. cbv beta. apply returns_bind.
  eapply returns_mono; [apply returns_randint; lia|].
  intros num w2 [Hnum _]. cbv beta. apply returns_bind.
  eapply returns_mono.
  { apply returns_sample. unfold len. lia. }
  intros nutrients w3 (Hsub & Hlen & _). cbv beta. apply returns_bind.
  eapply returns_mono; [by apply returns_choice|].
  intros ft w4 _. apply returns_ret. simpl. split; [done|]. lia.
Qed.

(** ** Coverage repair *)

Lemma elem_of_covered_acc (food_items : list SetCover.food)
    (acc : gset pystr) x :
  x ∈ foldl (λ s f, s ∪ list_to_set (SetCover.nutrients f)) acc food_items
  ↔ x ∈ acc ∨ ∃ f, f ∈ food_items ∧ x ∈ SetCover.nutrients f.
Proof.
  revert acc. induction food_items as [|f food_items IH]; intros acc; simpl.
  - split; [by left|]. intros [?|(f & Hf & _)]; [done|]. by inversion Hf.
  - rewrite IH, elem_of_union, elem_of_list_to_set. split.
    + intros [[?|?]|(g & Hg & ?)]; [by left| |].
      * right. exists f. split; [by left|done].
      * right. exists g. split; [by right|done].
    + intros [?|(g & Hg & ?)]; [by left; left|].
      apply elem_of_cons in Hg as [-> |Hg]; [by left; right|].
      right. by exists g.
Qed.

Lemma elem_of_covered food_items x :
  x ∈ SetCover.covered food_items
  ↔ ∃ f, f ∈ food_items ∧ x ∈ SetCover.nutrients f.
Proof.
  unfold SetCover.covered. rewrite elem_of_covered_acc.
  split; [intros [?|?]; [set_solver|done]|by right].
Qed.

Lemma elem_of_uncovered food_items universe x :
  x ∈ uncovered food_items universe
  ↔ x ∈ universe ∧ ¬ ∃ f, f ∈ food_items ∧ x ∈ SetCover.nutrients f.
Proof.
  unfold uncovered.
  by rewrite elem_of_difference, elem_of_list_to_set, elem_of_covered.
Qed.

Lemma elem_of_iter (order : set_order) (X : gset pystr) (x : pystr) :
  x ∈ iter order X ↔ x ∈ X.
Proof. by rewrite (iter_perm order X), elem_of_elements. Qed.

Lemma NoDup_iter (order : set_order) (X : gset pystr) : NoDup (iter order X).
Proof. rewrite (iter_perm order X). apply NoDup_elements. Qed.

Lemma extends_food_refl f : extends_food [] f f.
Proof.
  split; [done|]. split; [done|]. exists []. rewrite app_nil_r.
  split; [done|]. split; [constructor|]. by intros x Hx.
Qed.

Lemma extends_food_mono done x f f' :
  extends_food done f f' → extends_food (done ++ [x]) f f'.
Proof.
  intros (? & ? & extra & ? & ? & Hin). split; [done|]. split; [done|].
  exists extra. split; [done|]. split; [done|].
  intros y Hy. apply elem_of_app. left. by apply Hin.
Qed.

Lemma extends_food_append done x f f' :
  x ∉ done →
  extends_food done f f' →
  extends_food (done ++ [x]) f
    (SetCover.Food (SetCover.name f') (SetCover.calories f')
       (SetCover.nutrients f' ++ [x])).
Proof.
  intros Hx (? & ? & extra & Hn & Hnd & Hin). split; [done|]. split; [done|].
  exists (extra ++ [x]). simpl. split; [by rewrite Hn, app_assoc|]. split.
  - apply NoDup_app. split; [done|]. split; [|apply NoDup_singleton].
    intros y Hy ->%list_elem_of_singleton. by apply Hx, Hin.
  - intros y [Hy| ->%list_elem_of_singleton]%elem_of_app; apply elem_of_app.
    + left. by apply Hin.
    + right. by apply list_elem_of_singleton.
Qed.

Lemma Forall2_extends_append done x food_items s i :
  x ∉ done →
  Forall2 (extends_food done) food_items s →
  Forall2 (extends_food (done ++ [x])) food_items
          (SetCover.append_nutrient s i x).
Proof.
  intros Hx Hall. revert i. unfold SetCover.append_nutrient.
  induction Hall as [|f f' l l' Hff' Hall IH]; intros [|i]; simpl.
  - constructor.
  - constructor.
  - constructor; [by apply extends_food_append|].
    eapply Forall2_impl; [done|]. intros. by apply extends_food_mono.
  - constructor; [by apply extends_food_mono|]. apply IH.
Qed.

(** The repair: every food keeps its name, calories and sampled nutrients;
    each uncovered nutrient is appended to exactly one food. *)
Lemma ensures_ensure_coverage order food_items universe w :
  ensures (SetCover.ensure_coverage order food_items universe) w
    (λ food_items' w',
       Forall2 (extends_food (iter order (uncovered food_items universe)))
               food_items food_items' ∧
       (∀ x, x ∈ uncovered food_items universe →
          ∃ f', f' ∈ food_items' ∧ x ∈ SetCover.nutrients f') ∧
       draws_only w w').
Proof.
  unfold SetCover.ensure_coverage. fold (uncovered food_items universe).
  set (todo := iter order (uncovered food_items universe)).
  assert (NoDup todo) as Hnd by apply NoDup_iter.
  eapply ensures_mono.
  - apply (ensures_foldM _ (λ done s w',
       Forall2 (extends_food done) food_items s ∧
       (∀ x, x ∈ done → ∃ i f', s !! i = Some f' ∧ x ∈ SetCover.nutrients f') ∧
       draws_only w w')).
    + intros done x rest s w1 Hsplit (Hext & Hcov & Hw1).
      assert (x ∉ done) as Hx.
      { rewrite Hsplit in Hnd. apply NoDup_app in Hnd as (_ & Hdisj & _).
        intros Hin. apply (Hdisj x Hin). by left. }
      apply ensures_bind.
      destruct (decide (s = [])) as [-> |Hne]; [done|].
      apply returns_ensures.
      eapply returns_mono; [by apply returns_choice_pos|].
      intros i w2 [Hi Hw2]. apply ensures_ret.
      split; [by apply Forall2_extends_append|].
      unfold SetCover.append_nutrient. split.
      * intros y [Hy| ->%list_elem_of_singleton]%elem_of_app.
        -- destruct (Hcov y Hy) as (j & f' & Hj & Hyf).
           destruct (decide (i = j)) as [<- |Hij].
           ++ eexists i, _. rewrite list_lookup_alter_eq, Hj. split; [done|].
              simpl. apply elem_of_app. by left.
           ++ exists j, f'. by rewrite list_lookup_alter_ne.
        -- destruct (lookup_lt_is_Some_2 s i Hi) as [f' Hf'].
           eexists i, _. rewrite list_lookup_alter_eq, Hf'. split; [done|].
           simpl. apply elem_of_app. right. by apply list_elem_of_singleton.
      * chain_draws.
    + split; [|split].
      * apply Forall_Forall2_diag, Forall_forall. intros. apply extends_food_refl.
      * intros x Hx. by inversion Hx.
      * apply draws_only_refl.
  - intros s w' (Hext & Hcov & Hw'). split; [done|]. split; [|done].
    intros x Hx. destruct (Hcov x) as (i & f' & Hi & Hxf).
    + by apply elem_of_iter.
    + exists f'. split; [|done]. by eapply list_elem_of_lookup_2.
Qed.

Lemma returns_ensure_coverage order food_items universe w :
  food_items ≠ [] →
  returns (SetCover.ensure_coverage order food_items universe) w (λ _ _, True).
Proof.
  intros Hne. unfold SetCover.ensure_coverage.
  eapply returns_mono.
  - apply (returns_foldM _ (λ _ s _, length s = length food_items)); [|done].
    intros _ x _ s w1 _ Hlen. apply returns_bind.
    eapply returns_mono.
    + apply returns_choice_pos. intros ->. by destruct food_items.
    + intros i w2 _. apply returns_ret.
      unfold SetCover.append_nutrient. by rewrite length_alter.
  - done.
Qed.

(** After the repair the union of the nutrient lists is the universe. *)
Lemma repaired_union_exact order food_items universe food_items' :
  (∀ f x, f ∈ food_items → x ∈ SetCover.nutrients f → x ∈ universe) →
  Forall2 (extends_food (iter order (uncovered food_items universe)))
          food_items food_items' →
  (∀ x, x ∈ uncovered food_items universe →
     ∃ f', f' ∈ food_items' ∧ x ∈ SetCover.nutrients f') →
  ∀ x, x ∈ universe ↔ ∃ f', f' ∈ food_items' ∧ x ∈ SetCover.nutrients f'.
Proof.
  intros Hdrawn Hext Hcov x. split.
  - intros Hx.
    destruct (decide (x ∈ SetCover.covered food_items)) as [Hin|Hout].
    + apply elem_of_covered in Hin as (f & Hf & Hxf).
      apply list_elem_of_lookup in Hf as (i & Hi).
      destruct (Forall2_lookup_l _ _ _ _ _ Hext Hi)
        as (f' & Hi' & _ & _ & extra & Hn & _).
      exists f'. split; [by eapply list_elem_of_lookup_2|].
      rewrite Hn. apply elem_of_app. by left.
    + apply Hcov. unfold uncovered.
      apply elem_of_difference. by rewrite elem_of_list_to_set.
  - intros (f' & Hf' & Hxf').
    apply list_elem_of_lookup in Hf' as (i & Hi').
    destruct (Forall2_lookup_r _ _ _ _ _ Hext Hi')
      as (f & Hi & _ & _ & extra & Hn & _ & Hextra).
    rewrite Hn in Hxf'. apply elem_of_app in Hxf' as [Hxf|Hxe].
    + apply (Hdrawn f); [by eapply list_elem_of_lookup_2|done].
    + apply Hextra, elem_of_iter, elem_of_uncovered in Hxe. by destruct Hxe.
Qed.

(** After the repair no nutrient list has a duplicate. *)
Lemma repaired_NoDup order food_items universe food_items' :
  Forall (λ f, NoDup (SetCover.nutrients f)) food_items →
  Forall2 (extends_food (iter order (uncovered food_items universe)))
          food_items food_items' →
  Forall (λ f, NoDup (SetCover.nutrients f)) food_items'.
Proof.
  intros Hall Hext. apply Forall_lookup. intros i f' Hi'.
  destruct (Forall2_lookup_r _ _ _ _ _ Hext Hi')
    as (f & Hi & _ & _ & extra & -> & Hextra & Hin).
  apply NoDup_app. split; [|split; [|done]].
  - rewrite Forall_lookup in Hall. by apply (Hall i).
  - intros x Hxf Hxe.
    apply Hin, elem_of_iter, elem_of_uncovered in Hxe as [_ Hxe].
    apply Hxe. exists f. split; [by eapply list_elem_of_lookup_2|done].
Qed.

(** C2: for sampled foods whose nutrients are drawn from the universe, the
    repair returns normally whenever there is at least one food, and
    whenever it returns the union of the foods' nutrient lists is exactly
    the universe: every universe nutrient is in some food, and no food
    holds a nutrient outside the universe. *)
Theorem ensure_coverage_exact order food_items universe w :
  (∀ f x, f ∈ food_items → x ∈ SetCover.nutrients f → x ∈ universe) →
  (food_items ≠ [] →
   ∃ food_items' w',
     SetCover.ensure_coverage order food_items universe w = Ok food_items' w') ∧
  (∀ food_items' w',
     SetCover.ensure_coverage order food_items universe w = Ok food_items' w' →
     ∀ x, x ∈ universe ↔ ∃ f', f' ∈ food_items' ∧ x ∈ SetCover.nutrients f').
Proof.
  intros Hdrawn. split.
  - intros Hne.
    pose proof (returns_ensure_coverage order food_items universe w Hne) as Hret.
    apply returns_iff in Hret as (food_items' & w' & Hrun & _). eauto.
  - intros food_items' w' Hrun.
    pose proof (ensures_Ok _ _ _ _ _
                  (ensures_ensure_coverage order food_items universe w) Hrun)
      as (Hext & Hcov & _).
    by eapply repaired_union_exact.
Qed.

Lemma ensure_coverage_exact_witness :
  ∃ food_items' w',
    SetCover.ensure_coverage backward_order example_foods example_universe
      idle_world
    = Ok food_items' w' ∧
    ∀ x, x ∈ example_universe
         ↔ ∃ f', f' ∈ food_items' ∧ x ∈ SetCover.nutrients f'.
Proof.
  assert (∀ f x, f ∈ example_foods → x ∈ SetCover.nutrients f →
                 x ∈ example_universe) as Hdrawn.
  { assert (Forall (λ f, Forall (λ x, x ∈ example_universe)
                            (SetCover.nutrients f)) example_foods) as Hall
      by (apply (bool_decide_unpack _); vm_compute; exact I).
    intros f x Hf Hx. rewrite Forall_forall in Hall.
    specialize (Hall f Hf). rewrite Forall_forall in Hall. by apply Hall. }
  destruct (ensure_coverage_exact backward_order example_foods
              example_universe idle_world Hdrawn) as [Htotal Hexact].
  destruct Htotal as (food_items' & w' & Hrun); [done|].
  exists food_items', w'. split; [done|]. exact (Hexact food_items' w' Hrun).
Defined.

(** ** The universe has no duplicate *)

Lemma Forall2_eq_fmap {A B} (g : A → B) (l : list A) (ys : list B) :
  Forall2 (λ x y, y = g x) l ys → ys = g <$> l.
Proof. induction 1 as [|x y l ys -> _ ->]; by simpl. Qed.

Lemma ensures_generate_universe n w :
  ensures (SetCover.generate_universe n) w
    (λ u w', u = nutrient_name <$> py_range n ∧ w' = w).
Proof.
  unfold SetCover.generate_universe.
  eapply ensures_mono.
  - apply (ensures_forM _ (λ w', w' = w) (λ i y, y = nutrient_name i));
      [|done].
    intros i w1 Hi%elem_of_py_range ->. cbv beta.
    change (len SetCover.prefixes) with 10.
    assert (Z.to_nat (i mod 10) < length SetCover.prefixes)%nat as Hlt.
    { change (length SetCover.prefixes) with 10%nat.
      pose proof (Z.mod_pos_bound i 10). lia. }
    apply lookup_lt_is_Some_2 in Hlt as [prefix Hp].
    apply ensures_bind. unfold ensures at 1, index. rewrite Hp.
    unfold ret at 1. cbv beta iota. unfold nutrient_name.
    rewrite Hp. simpl.
    apply ensures_bind.
    destruct (10 <=? i); [|by apply ensures_ret].
    unfold chr.
    destruct ((0 <=? ord_A + i / 10) && (ord_A + i / 10 <=? 1114111)); [|done].
    by apply ensures_ret.
  - intros u w' [Hall ->]. split; [|done]. by apply Forall2_eq_fmap.
Qed.

Lemma prefixes_heads_distinct :
  NoDup (take 2 <$> SetCover.prefixes) ∧
  Forall (λ p : pystr, (2 ≤ length p)%nat) SetCover.prefixes.
Proof. split; apply (bool_decide_unpack _); vm_compute; exact I. Qed.

Lemma nutrient_name_inj i j :
  0 ≤ i → 0 ≤ j → nutrient_name i = nutrient_name j → i = j.
Proof.
  intros Hi Hj Heq. unfold nutrient_name in Heq.
  destruct prefixes_heads_distinct as [Hnd Hlen].
  pose proof (Z.mod_pos_bound i 10 eq_refl) as Hri.
  pose proof (Z.mod_pos_bound j 10 eq_refl) as Hrj.
  destruct (lookup_lt_is_Some_2 SetCover.prefixes (Z.to_nat (i mod 10)))
    as [p Hp]; [change (length SetCover.prefixes) with 10%nat; lia|].
  destruct (lookup_lt_is_Some_2 SetCover.prefixes (Z.to_nat (j mod 10)))
    as [q Hq]; [change (length SetCover.prefixes) with 10%nat; lia|].
  rewrite Hp, Hq in Heq. simpl in Heq.
  assert (Z.to_nat (i mod 10) = Z.to_nat (j mod 10)) as Hr.
  { pose proof (f_equal (take 2) Heq) as Ht.
    rewrite Forall_forall in Hlen.
    rewrite !take_app_le in Ht
      by (apply Hlen; eapply list_elem_of_lookup_2; eassumption).
    apply (NoDup_lookup _ _ _ (take 2 p) Hnd).
    - by rewrite list_lookup_fmap, Hp.
    - by rewrite list_lookup_fmap, Hq, Ht. }
  assert (i mod 10 = j mod 10) as Hmod by lia.
  rewrite Hr in Hp. rewrite Hp in Hq. injection Hq as <-.
  rewrite Hmod in Heq.
  apply app_inv_head, app_inv_tail in Heq.
  rewrite (Z.div_mod i 10), (Z.div_mod j 10), Hmod by lia.
  destruct (10 <=? i) eqn:Hki, (10 <=? j) eqn:Hkj; try done.
  - injection Heq as Heq. apply Z.leb_le in Hki, Hkj.
    assert (0 ≤ i / 10) by (apply Z.div_pos; lia).
    assert (0 ≤ j / 10) by (apply Z.div_pos; lia).
    unfold ord_A in Heq. lia.
  - apply Z.leb_gt in Hki, Hkj.
    rewrite (Z.div_small i 10), (Z.div_small j 10) by lia. done.
Qed.

Lemma NoDup_py_range n : NoDup (py_range n).
Proof.
  unfold py_range. apply NoDup_fmap_2; [apply _|apply NoDup_seq].
Qed.

Lemma NoDup_generate_universe n w :
  ensures (SetCover.generate_universe n) w (λ u _, NoDup u).
Proof.
  eapply ensures_mono; [apply ensures_generate_universe|].
  intros u w' [-> _]. apply NoDup_fmap_2_strong; [|apply NoDup_py_range].
  intros i j Hi%elem_of_py_range Hj%elem_of_py_range.
  apply nutrient_name_inj; lia.
Qed.

(** C10: the nutrient list of a food has no duplicate, as sampled from a
    generated universe and after the repair, under every iteration order
    of the uncovered set. *)
Theorem nutrient_lists_duplicate_free order n universe w0 w0' :
  SetCover.generate_universe n w0 = Ok universe w0' →
  (∀ food_id min_nutrients max_nutrients w f w',
     SetCover.generate_food_item food_id universe min_nutrients max_nutrients w
     = Ok f w' →
     NoDup (SetCover.nutrients f)) ∧
  (∀ food_items w food_items' w',
     Forall (λ f, NoDup (SetCover.nutrients f)) food_items →
     SetCover.ensure_coverage order food_items universe w = Ok food_items' w' →
     Forall (λ f, NoDup (SetCover.nutrients f)) food_items').
Proof.
  intros Huni.
  pose proof (ensures_Ok _ _ _ _ _ (NoDup_generate_universe n w0) Huni) as Hnd.
  split.
  - intros food_id min_nutrients max_nutrients w f w' Hrun.
    pose proof (ensures_Ok _ _ _ _ _
                  (ensures_generate_food_item food_id universe min_nutrients
                     max_nutrients w) Hrun) as [Hsub _].
    by eapply submseteq_NoDup.
  - intros food_items w food_items' w' Hall Hrun.
    pose proof (ensures_Ok _ _ _ _ _
                  (ensures_ensure_coverage order food_items universe w) Hrun)
      as (Hext & _ & _).
    by eapply repaired_NoDup.
Qed.

Lemma nutrient_lists_duplicate_free_witness :
  ∃ f w' food_items' w'',
    SetCover.generate_food_item 1 example_universe 3 10 idle_world = Ok f w' ∧
    NoDup (SetCover.nutrients f) ∧
    SetCover.ensure_coverage backward_order example_foods example_universe
      idle_world = Ok food_items' w'' ∧
    Forall (λ f, NoDup (SetCover.nutrients f)) food_items'.
Proof.
  destruct (nutrient_lists_duplicate_free backward_order 5 example_universe
              idle_world idle_world) as [Hsampled Hrepaired].
  { vm_compute. reflexivity. }
  eexists _, _, _, _. split; [vm_compute; reflexivity|].
  split; [eapply (Hsampled 1 3 10 idle_world); vm_compute; reflexivity|].
  split; [vm_compute; reflexivity|].
  eapply (Hrepaired example_foods idle_world).
  - apply (bool_decide_unpack _). vm_compute. exact I.
  - vm_compute. reflexivity.
Defined.

(** ** The calorie budget *)



Lemma returns_random w :
  returns random w (λ r w', (0 <= r)%Q ∧ (r <= 1)%Q ∧ drawn 1 w w').
Proof.
  unfold random. apply returns_bind.
  eapply returns_mono; [by apply returns_randbelow|].
  intros u w' [Hu Hw']. apply returns_ret. split; [|split; [|done]].
  - unfold Qle. simpl. lia.
  - unfold Qle. simpl. lia.
Qed.

Lemma returns_uniform a b w :
  (a <= b)%Q →
  returns (uniform a b) w (λ r w', (a <= r)%Q ∧ (r <= b)%Q ∧ drawn 1 w w').
Proof.
  intros Hab. unfold uniform. apply returns_bind.
  eapply returns_mono; [apply returns_random|].
  intros q w' (Hq0 & Hq1 & Hw'). apply returns_ret.
  split; [|split; [|done]]; nra.
Qed.



(** ** Generation touches nothing but the tape position *)

Create HintDb pure_gen.

Lemma pure_gen_ret {A} (a : A) : pure_gen (ret a).
Proof. intros w. apply draws_only_refl. Qed.

Lemma pure_gen_raise {A} e : pure_gen (@raise A e).
Proof. intros w. apply draws_only_refl. Qed.

Lemma pure_gen_bind {A B} (m : M A) (k : A → M B) :
  pure_gen m → (∀ a, pure_gen (k a)) → pure_gen (bind m k).
Proof.
  intros Hm Hk w. unfold bind. specialize (Hm w).
  destruct (m w) as [a w1|e w1]; [|done].
  specialize (Hk a w1). destruct (k a w1); by eapply draws_only_trans.
Qed.

Lemma pure_gen_randbelow n : pure_gen (randbelow n).
Proof. intros w. unfold randbelow, draws_only. simpl. repeat split. lia. Qed.

#[local] Hint Resolve pure_gen_ret pure_gen_raise pure_gen_bind
  pure_gen_randbelow : pure_gen.

Lemma pure_gen_forM {A B} (l : list A) (body : A → M B) :
  (∀ x, pure_gen (body x)) → pure_gen (forM l body).
Proof. intros Hb. induction l; simpl; auto with pure_gen. Qed.

Lemma pure_gen_foldM {A S} (body : S → A → M S) (l : list A) (s : S) :
  (∀ s x, pure_gen (body s x)) → pure_gen (foldM body l s).
Proof. intros Hb. revert s. induction l; simpl; auto with pure_gen. Qed.

Lemma pure_gen_index {A} (l : list A) i : pure_gen (index l i).
Proof. unfold index. destruct (l !! _); auto with pure_gen. Qed.

Lemma pure_gen_randint a b : pure_gen (randint a b).
Proof. unfold randint. destruct (b <? a); auto with pure_gen. Qed.

Lemma pure_gen_choice_pos {A} (seq : list A) : pure_gen (choice_pos seq).
Proof. unfold choice_pos. destruct seq; auto with pure_gen. Qed.

#[local] Hint Resolve pure_gen_forM pure_gen_foldM pure_gen_index
  pure_gen_randint pure_gen_choice_pos : pure_gen.

Lemma pure_gen_choice {A} (seq : list A) : pure_gen (choice seq).
Proof. unfold choice. auto with pure_gen. Qed.

Lemma pure_gen_sample {A} (population : list A) k :
  pure_gen (sample population k).
Proof.
  unfold sample. destruct (_ || _); [auto with pure_gen|].
  generalize (Z.to_nat k). intros n. revert population.
  induction n; intros pool; simpl; auto with pure_gen.
Qed.

Lemma pure_gen_uniform a b : pure_gen (uniform a b).
Proof. unfold uniform, random. auto with pure_gen. Qed.

Lemma pure_gen_chr c : pure_gen (chr c).
Proof. unfold chr. destruct (_ && _); auto with pure_gen. Qed.

#[local] Hint Resolve pure_gen_choice pure_gen_sample pure_gen_uniform
  pure_gen_chr : pure_gen.

(** One step through the syntax of a generator. *)
Ltac pure_gen_step :=
  cbv beta zeta;
  lazymatch goal with
  | |- pure_gen (bind _ _) => apply pure_gen_bind
  | |- pure_gen (forM _ _) => apply pure_gen_forM
  | |- pure_gen (foldM _ _ _) => apply pure_gen_foldM
  | |- pure_gen (if ?c then _ else _) => destruct c
  | |- pure_gen (match ?c with _ => _ end) => destruct c
  | |- pure_gen _ => solve [auto with pure_gen]
  | |- ∀ _, _ => intros ?
  end.

Lemma pure_gen_crew_generate_dataset n m :
  pure_gen (CrewScheduling.generate_dataset n m).
Proof.
  unfold CrewScheduling.generate_dataset, CrewScheduling.generate_airports,
    CrewScheduling.generate_flight_schedule, CrewScheduling.ensure_connectivity.
  repeat pure_gen_step.
Qed.

Lemma pure_gen_setcover_generate_dataset order nf nn :
  pure_gen (SetCover.generate_dataset order nf nn).
Proof.
  unfold SetCover.generate_dataset, SetCover.generate_universe,
    SetCover.generate_food_item, SetCover.ensure_coverage,
    SetCover.calculate_max_calories.
  repeat pure_gen_step.
Qed.

(** ** The set-cover pipeline *)

Lemma returns_calculate_max_calories food_items universe w :
  food_items ≠ [] →
  returns (SetCover.calculate_max_calories food_items universe) w
    (λ _ w', drawn 1 w w').
Proof.
  intros Hne. unfold SetCover.calculate_max_calories. apply returns_bind.
  eapply returns_mono; [by apply returns_uniform|].
  intros r w' (_ & _ & Hw'). cbv beta zeta.
  replace (len food_items =? 0) with false; [by apply returns_ret|].
  symmetry. apply Z.eqb_neq. destruct food_items; [done|].
  unfold len. simpl. lia.
Qed.

Lemma length_pos_nonempty {A} (l : list A) : (0 < length l)%nat → l ≠ [].
Proof. by destruct l; simpl; [lia|]. Qed.

(** With at least one food and a universe within [MAX_UNIVERSE], the
    in-memory pipeline returns normally, having only drawn from the tape;
    the dataset covers exactly its universe and no nutrient list has a
    duplicate. *)
Lemma returns_setcover_generate_dataset order nf nn w :
  1 ≤ nf → nn ≤ MAX_UNIVERSE →
  returns (SetCover.generate_dataset order nf nn) w
    (λ ds w',
       draws_only w w' ∧
       SetCover.universe ds = nutrient_name <$> py_range nn ∧
       length (SetCover.foods ds) = Z.to_nat nf ∧
       (∀ x, x ∈ SetCover.universe ds
             ↔ ∃ f, f ∈ SetCover.foods ds ∧ x ∈ SetCover.nutrients f) ∧
       Forall (λ f, NoDup (SetCover.nutrients f)) (SetCover.foods ds)).
Proof.
  intros Hnf Hnn. unfold SetCover.generate_dataset.
  destruct (generate_universe_fmap nn w Hnn) as (name & Hrun & _).
  pose proof (ensures_Ok _ _ _ _ _ (ensures_generate_universe nn w) Hrun)
    as [Hu _].
  pose proof (ensures_Ok _ _ _ _ _ (NoDup_generate_universe nn w) Hrun) as Hnd.
  apply returns_bind. unfold returns at 1. rewrite Hrun.
  set (universe := name <$> py_range nn) in *. cbv zeta.
  apply returns_bind. eapply returns_mono.
  { apply returns_split.
    - eapply returns_mono; [|done].
      apply (returns_forM _ (λ _, True) (λ _ _, True)); [|done].
      intros i w1 _ _. eapply returns_mono; [|done].
      apply returns_generate_food_item. split; [done|].
      etrans; [|apply Z.le_max_l]. done.
    - apply (ensures_forM _ (draws_only w)
               (λ _ f, SetCover.nutrients f ⊆+ universe));
        [|apply draws_only_refl].
      intros i w1 _ Hw1.
      eapply ensures_mono; [apply ensures_generate_food_item|].
      intros f w2 [Hsub Hw2]. split; [done|]. chain_draws. }
  intros food_items w1 [Hsampled Hw1]. cbv beta.
  assert (length food_items = Z.to_nat nf) as Hlen
    by by rewrite <- (Forall2_length _ _ _ Hsampled), py_range_length.
  apply Forall2_snd in Hsampled. rewrite Forall_forall in Hsampled.
  apply returns_bind. eapply returns_mono.
  { apply returns_split; [|apply ensures_ensure_coverage].
    apply returns_ensure_coverage, length_pos_nonempty. lia. }
  intros food_items' w2 (Hext & Hcov & Hw2). cbv beta.
  assert (length food_items' = Z.to_nat nf) as Hlen'
    by by rewrite <- (Forall2_length _ _ _ Hext).
  apply returns_bind. eapply returns_mono.
  { apply returns_calculate_max_calories, length_pos_nonempty. lia. }
  intros budget w3 Hw3. apply returns_ret. simpl. cbv beta in Hnd.
  split; [chain_draws|]. split; [done|]. split; [done|]. split.
  - apply (repaired_union_exact order food_items); [|done|done].
    intros f x Hf Hx. eapply elem_of_submseteq; [done|]. by apply Hsampled.
  - apply (repaired_NoDup order food_items universe); [|done].
    apply Forall_forall. intros f Hf.
    eapply submseteq_NoDup; [by apply Hsampled|done].
Qed.

(** Every generated set-cover dataset covers exactly its universe, without
    a duplicate in any nutrient list. *)
Theorem setcover_dataset_invariants order nf nn w :
  1 ≤ nf → nn ≤ MAX_UNIVERSE →
  ∃ ds w',
    SetCover.generate_dataset order nf nn w = Ok ds w' ∧
    (∀ x, x ∈ SetCover.universe ds
          ↔ ∃ f, f ∈ SetCover.foods ds ∧ x ∈ SetCover.nutrients f) ∧
    Forall (λ f, NoDup (SetCover.nutrients f)) (SetCover.foods ds).
Proof.
  intros Hnf Hnn.
  pose proof (returns_setcover_generate_dataset order nf nn w Hnf Hnn) as Hret.
  apply returns_iff in Hret as (ds & w' & Hrun & _ & _ & _ & Hcov & Hnd).
  by exists ds, w'.
Qed.

(** Every generated flight network on at least two airports gives every
    airport a departure, with well-formed flights only. *)
Theorem crew_dataset_invariants n m w :
  2 ≤ n →
  ∃ airports flights w',
    CrewScheduling.generate_dataset n m w = Ok (airports, flights) w' ∧
    (∀ a, a ∈ airports →
       ∃ f, f ∈ flights ∧ CrewScheduling.departure_airport f = a) ∧
    Forall flight_ok flights.
Proof.
  intros Hn.
  pose proof (returns_crew_generate_dataset n m w Hn) as Hret.
  apply returns_iff in Hret as ([airports flights] & w' & Hrun & _).
  pose proof (ensures_Ok _ _ _ _ _ (ensures_crew_generate_dataset n m w) Hrun)
    as Hok.
  exists airports, flights, w'. split; [done|]. split; [|done].
  unfold CrewScheduling.generate_dataset in Hrun.
  apply bind_Ok in Hrun as (airports' & w1 & _ & Hrun).
  apply bind_Ok in Hrun as (flights0 & w2 & _ & Hrun).
  apply bind_Ok in Hrun as (flights' & w3 & Hrep & [= -> -> _]).
  pose proof (ensures_Ok _ _ _ _ _
                (ensures_ensure_connectivity airports flights0 w2) Hrep)
    as (added & -> & Hdep & _).
  intros a Ha.
  destruct (decide (a ∈ CrewScheduling.has_departure flights0)) as [Hin|Hout].
  - apply elem_of_has_departure in Hin as (f & Hf & <-).
    exists f. split; [|done]. apply elem_of_app. by left.
  - assert (a ∈ CrewScheduling.departure_airport <$> added) as Hin.
    { rewrite Hdep. by apply list_elem_of_filter. }
    apply list_elem_of_fmap in Hin as (f & -> & Hf).
    exists f. split; [|done]. apply elem_of_app. by right.
Qed.

(** ** Failure modes of [generate_test_file] *)

Lemma choice_singleton {A} (x : A) w :
  ∃ w', choice [x] w = Ok x w' ∧ drawn 1 w w'.
Proof.
  pose proof (returns_choice [x] w) as Hret.
  apply returns_iff in Hret as (y & w' & Hrun & Hy & Hw'); [|done].
  apply list_elem_of_singleton in Hy as ->. eauto.
Qed.

Lemma generate_airports_one w :
  CrewScheduling.generate_airports 1 w = Ok [lit "JFK"] w.
Proof. done. Qed.

(** No airport, at least one flight: the first draw of the sampler is
    from an empty list. *)
Lemma crew_no_airport n m w :
  n ≤ 0 → 1 ≤ m →
  CrewScheduling.generate_test_file n m w = Raise IndexError w.
Proof.
  intros Hn Hm.
  unfold CrewScheduling.generate_test_file, CrewScheduling.generate_dataset,
    CrewScheduling.generate_flight_schedule, bind.
  rewrite generate_airports_nonpos by done.
  by rewrite py_range_pos by lia.
Qed.

(** One airport, no flight: the repair draws from an empty list. *)
Lemma crew_one_airport_no_flight m w :
  m ≤ 0 → CrewScheduling.generate_test_file 1 m w = Raise IndexError w.
Proof.
  intros Hm.
  unfold CrewScheduling.generate_test_file, CrewScheduling.generate_dataset,
    bind.
  rewrite generate_airports_one, generate_flight_schedule_none by done.
  done.
Qed.

(** One airport, at least one flight: the origin is drawn, then the
    destination is drawn from an empty list. *)
Lemma crew_one_airport_flights m w :
  1 ≤ m →
  ∃ w', CrewScheduling.generate_test_file 1 m w = Raise IndexError w'
        ∧ drawn 1 w w'.
Proof.
  intros Hm. destruct (choice_singleton (lit "JFK") w) as (w' & Hrun & Hw').
  exists w'. split; [|done].
  unfold CrewScheduling.generate_test_file, CrewScheduling.generate_dataset,
    CrewScheduling.generate_flight_schedule, bind.
  rewrite generate_airports_one, py_range_pos by lia.
  cbn [forM]. unfold bind. by rewrite Hrun.
Qed.


(** At least two airports: a file is written, whatever the number of
    flights requested. *)
Lemma crew_two_airports n m w :
  2 ≤ n →
  ∃ r w', CrewScheduling.generate_test_file n m w = Ok r w' ∧
    is_Some (disk w' !! path_join DATA_DIR (CrewScheduling.file_name n m)).
Proof.
  intros Hn.
  pose proof (returns_crew_generate_dataset n m w Hn) as Hret.
  apply returns_iff in Hret as (ds & w' & Hrun & _).
  unfold CrewScheduling.generate_test_file, bind. rewrite Hrun.
  eexists _, _. split; [done|]. simpl. by rewrite lookup_insert_eq.
Qed.

(** No partial file: a failing generation leaves the disk as it was. *)
Lemma crew_raise_no_file n m w e w' :
  CrewScheduling.generate_test_file n m w = Raise e w' → disk w' = disk w.
Proof.
  unfold CrewScheduling.generate_test_file, bind.
  pose proof (pure_gen_crew_generate_dataset n m w) as Hpure.
  destruct (CrewScheduling.generate_dataset n m w) as [ds w1|e1 w1]; [done|].
  intros [= _ ->]. by destruct Hpure as (_ & _ & ?).
Qed.


Lemma iter_empty (order : set_order) : iter order ∅ = [].
Proof.
  apply Permutation_nil_r. by rewrite (iter_perm order ∅), elements_empty.
Qed.

Lemma covered_nil : SetCover.covered [] = ∅.
Proof. done. Qed.



(** At least one food: a file is written, even for an empty universe. *)
Lemma setcover_some_food order nf nn w :
  1 ≤ nf → nn ≤ MAX_UNIVERSE →
  ∃ r w', SetCover.generate_test_file order nf nn w = Ok r w' ∧
    is_Some (disk w' !! path_join DATA_DIR (SetCover.file_name nf nn)).
Proof.
  intros Hnf Hnn.
  pose proof (returns_setcover_generate_dataset order nf nn w Hnf Hnn) as Hret.
  apply returns_iff in Hret as (ds & w' & Hrun & _).
  unfold SetCover.generate_test_file, bind. rewrite Hrun.
  eexists _, _. split; [done|]. simpl. by rewrite lookup_insert_eq.
Qed.




(** ** The iteration order of the uncovered set shows in the output *)

Lemma choice_pos_singleton {A} (x : A) w :
  choice_pos [x] w = Ok 0%nat (World (tape w) (S (cursor w)) (disk w)).
Proof.
  unfold choice_pos, bind, randbelow, ret, len. simpl.
  by rewrite Z.mod_1_r.
Qed.

(** With a single food, every uncovered nutrient goes to that food, in the
    order of the iteration. *)
Lemma ensure_coverage_single order f universe w :
  SetCover.ensure_coverage order [f] universe w
  = Ok [SetCover.Food (SetCover.name f) (SetCover.calories f)
          (SetCover.nutrients f ++ iter order (uncovered [f] universe))]
       (World (tape w)
          (cursor w + length (iter order (uncovered [f] universe)))
          (disk w)).
Proof.
  unfold SetCover.ensure_coverage. fold (uncovered [f] universe).
  generalize (iter order (uncovered [f] universe)). intros todo.
  revert f w. induction todo as [|x todo IH]; intros f w.
  - destruct f, w. simpl. unfold ret. by rewrite app_nil_r, Nat.add_0_r.
  - cbn [foldM]. unfold bind at 1. unfold bind at 1.
    rewrite choice_pos_singleton. unfold ret at 1.
    unfold SetCover.append_nutrient. simpl alter. rewrite IH. simpl.
    rewrite <- app_assoc. do 2 f_equal. lia.
Qed.

Lemma reverse_ne {A} (l : list A) :
  NoDup l → (2 ≤ length l)%nat → reverse l ≠ l.
Proof.
  intros Hnd Hlen Heq. destruct l as [|x [|y l]]; simpl in Hlen; try lia.
  apply NoDup_cons in Hnd as [Hx _].
  rewrite reverse_cons in Heq.
  destruct (reverse (y :: l)) as [|z k] eqn:Hrev.
  - apply (f_equal length) in Hrev. rewrite length_reverse in Hrev. done.
  - simpl in Heq. injection Heq as -> Hk. apply Hx.
    rewrite <- Hk. apply elem_of_app. right. by left.
Qed.

Lemma uncovered_single_size f universe :
  NoDup universe →
  SetCover.nutrients f ⊆+ universe →
  (length universe - length (SetCover.nutrients f)
   ≤ length (elements (uncovered [f] universe)))%nat.
Proof.
  intros Hnd Hsub. unfold uncovered, SetCover.covered. simpl.
  change (length (elements ?X)) with (size X).
  rewrite size_difference.
  - rewrite size_list_to_set by done. rewrite size_union_alt.
    rewrite size_empty. simpl.
    assert (size (list_to_set (SetCover.nutrients f) ∖ ∅ : gset pystr)
            ≤ length (SetCover.nutrients f))%nat; [|lia].
    rewrite difference_empty_L.
    rewrite size_list_to_set; [done|]. by eapply submseteq_NoDup.
  - intros x [Hx|Hx]%elem_of_union; [set_solver|].
    apply elem_of_list_to_set. apply elem_of_list_to_set in Hx.
    by eapply elem_of_submseteq.
Qed.

(** One food and twenty nutrients: the food drawn by the sampler, and the
    dataset under a given iteration order. *)
Lemma generate_dataset_one_food order w :
  ∃ f w1 budget w2,
    SetCover.generate_food_item 1 (nutrient_name <$> py_range 20) 3 10 w
    = Ok f w1 ∧
    SetCover.nutrients f ⊆+ nutrient_name <$> py_range 20 ∧
    (length (SetCover.nutrients f) ≤ 10)%nat ∧
    SetCover.generate_dataset order 1 20 w
    = Ok (SetCover.Dataset (nutrient_name <$> py_range 20)
            [SetCover.Food (SetCover.name f) (SetCover.calories f)
               (SetCover.nutrients f
                ++ iter order (uncovered [f] (nutrient_name <$> py_range 20)))]
            budget) w2.
Proof.
  set (universe := nutrient_name <$> py_range 20).
  pose proof (returns_generate_food_item 1 universe 3 10 w) as Hret.
  apply returns_iff in Hret as (f & w1 & Hf & Hsub & Hlen); [|lia].
  set (f' := SetCover.Food (SetCover.name f) (SetCover.calories f)
               (SetCover.nutrients f ++ iter order (uncovered [f] universe))).
  set (w1' := World (tape w1)
                (cursor w1 + length (iter order (uncovered [f] universe)))
                (disk w1)).
  pose proof (returns_calculate_max_calories [f'] universe w1') as Hret.
  apply returns_iff in Hret as (budget & w2 & Hbudget & _); [|done].
  exists f, w1, budget, w2. split; [done|]. split; [done|].
  split; [unfold len in Hlen; lia|].
  assert (SetCover.generate_universe 20 w = Ok universe w) as Huni
    by by vm_compute.
  unfold SetCover.generate_dataset.
  change (SetCover.MAX_NUTRIENT_UPPER_LIMIT
          `max` int_of_float (inject_Z 20 * SetCover.MAX_NUTRIENT_FRACTION))
    with 10.
  change SetCover.MIN_NUTRIENTS_PER_FOOD with 3.
  change (py_range 1) with [0]. cbn [forM]. change (0 + 1) with 1.
  unfold bind. rewrite Huni, Hf. unfold ret at 1 2.
  rewrite ensure_coverage_single. fold f' w1'. by rewrite Hbudget.
Qed.

(** C6 (the code against the claim): with one food and twenty nutrients,
    whatever the tape, two runs that differ only in the iteration order of
    the set [uncovered] return different foods; and from the same seed the
    two runs of the batch write different files. *)
Theorem set_iteration_order_changes_output :
  (∀ w, ∃ ds1 w1 ds2 w2,
     SetCover.generate_dataset forward_order 1 20 w = Ok ds1 w1 ∧
     SetCover.generate_dataset backward_order 1 20 w = Ok ds2 w2 ∧
     SetCover.foods ds1 ≠ SetCover.foods ds2) ∧
  (∃ r w1 w2,
     SetCover.run_batch forward_order zero_stream [(1, 20)] idle_world
     = Ok r w1 ∧
     SetCover.run_batch backward_order zero_stream [(1, 20)] idle_world
     = Ok r w2 ∧
     disk w1 !! path_join DATA_DIR (SetCover.file_name 1 20)
     ≠ disk w2 !! path_join DATA_DIR (SetCover.file_name 1 20)).
Proof.
  split.
  - intros w.
    destruct (generate_dataset_one_food forward_order w)
      as (f & w1 & b1 & w2 & Hf & Hsub & Hlen & Hrun1).
    destruct (generate_dataset_one_food backward_order w)
      as (f' & w1' & b2 & w2' & Hf' & _ & _ & Hrun2).
    rewrite Hf in Hf'. injection Hf' as <- <-.
    assert (NoDup (nutrient_name <$> py_range 20)) as Hnd
      by (apply (bool_decide_unpack _); vm_compute; exact I).
    assert (length (nutrient_name <$> py_range 20) = 20%nat) as Hlen20
      by done.
    remember (nutrient_name <$> py_range 20) as universe eqn:Huni.
    eexists _, _, _, _. split; [exact Hrun1|]. split; [exact Hrun2|].
    cbv [SetCover.foods iter forward_order backward_order].
    intros [= Heq%app_inv_head]. symmetry in Heq. revert Heq.
    apply reverse_ne.
    + apply NoDup_elements.
    + pose proof (uncovered_single_size f _ Hnd Hsub) as Hsize. lia.
  - eexists _, _, _. split; [vm_compute; reflexivity|].
    split; [vm_compute; reflexivity|].
    apply (bool_decide_unpack _). vm_compute. exact I.
Qed.

(** ** What seeding does give *)

(** A batch depends on the world it starts from only through the disk:
    seeding discards the earlier state of the generator. *)
Theorem crew_batch_reproducible stream_of_seed configs w1 w2 :
  disk w1 = disk w2 →
  CrewScheduling.run_batch stream_of_seed configs w1
  = CrewScheduling.run_batch stream_of_seed configs w2.
Proof.
  intros Hdisk. unfold CrewScheduling.run_batch, bind, seed.
  by rewrite Hdisk.
Qed.

(** For set cover this holds between runs that iterate sets in the same
    order. *)
Theorem setcover_batch_reproducible order stream_of_seed configs w1 w2 :
  disk w1 = disk w2 →
  SetCover.run_batch order stream_of_seed configs w1
  = SetCover.run_batch order stream_of_seed configs w2.
Proof.
  intros Hdisk. unfold SetCover.run_batch, bind, seed.
  by rewrite Hdisk.
Qed.

(** ** Decimal rendering of integers *)

Lemma lit_inj s t : lit s = lit t → s = t.
Proof.
  unfold lit. intros Heq.
  rewrite <- (string_of_list_ascii_of_string s),
          <- (string_of_list_ascii_of_string t).
  f_equal. revert Heq.
  generalize (list_ascii_of_string s) (list_ascii_of_string t).
  induction l as [|a l IH]; intros [|b k]; simpl; try done.
  intros [= Hab Hlk]. f_equal; [|by apply IH].
  by rewrite <- (ascii_N_embedding a), <- (ascii_N_embedding b), Hab.
Qed.

Lemma Z_to_int_proper z : Z.to_int z ≠ Decimal.Pos Decimal.Nil
                          ∧ Z.to_int z ≠ Decimal.Neg Decimal.Nil.
Proof.
  destruct z as [|p|p]; simpl; split; try done.
  - intros [= Hp]. by apply (DecimalPos.Unsigned.to_uint_nonnil p).
  - intros [= Hp]. by apply (DecimalPos.Unsigned.to_uint_nonnil p).
Qed.

Lemma str_of_int_inj i j : str_of_int i = str_of_int j → i = j.
Proof.
  unfold str_of_int. intros Heq%lit_inj.
  apply DecimalZ.to_int_inj.
  destruct (Z_to_int_proper i) as [Hi1 Hi2].
  destruct (Z_to_int_proper j) as [Hj1 Hj2].
  pose proof (NilZero.isi _ Hi1 Hi2) as Hi.
  pose proof (NilZero.isi _ Hj1 Hj2) as Hj.
  rewrite Heq in Hi. congruence.
Qed.

Lemma lit_length s : length (lit s) = String.length s.
Proof.
  unfold lit. rewrite length_fmap.
  induction s; simpl; congruence.
Qed.

(** An integer of at least ten prints with at least two characters. *)
Lemma str_of_int_length i : 10 ≤ i → (2 ≤ length (str_of_int i))%nat.
Proof.
  intros Hi. unfold str_of_int. rewrite lit_length.
  pose proof (DecimalZ.of_to i) as Hof.
  destruct (Z.to_int i) as [d|d] eqn:Hd.
  - destruct d as [|d|d|d|d|d|d|d|d|d|d]; [vm_compute in Hof; lia|..];
      (destruct d; [vm_compute in Hof; lia|simpl; lia..]).
  - assert (Z.of_int (Decimal.Neg d) ≤ 0); [|lia].
    unfold Z.of_int, Z.of_uint.
    pose proof (N2Z.is_nonneg (Pos.of_uint d)). lia.
Qed.

Lemma format_02d_inj i j :
  10 ≤ i → 10 ≤ j → format_02d i = format_02d j → i = j.
Proof.
  intros Hi Hj. unfold format_02d.
  pose proof (str_of_int_length i Hi) as Hli.
  pose proof (str_of_int_length j Hj) as Hlj.
  destruct (Nat.ltb_spec (length (str_of_int i)) 2); [lia|].
  destruct (Nat.ltb_spec (length (str_of_int j)) 2); [lia|].
  apply str_of_int_inj.
Qed.

(** ** Airport codes *)

Lemma generate_airports_run n w :
  CrewScheduling.generate_airports n w = Ok (airport_code <$> py_range n) w.
Proof.
  apply forM_pure. intros i Hi%elem_of_py_range. unfold airport_code.
  change (len CrewScheduling.airport_codes) with 50.
  destruct (i <? 50) eqn:Hlt; [|done].
  apply Z.ltb_lt in Hlt. unfold index.
  destruct (lookup_lt_is_Some_2 CrewScheduling.airport_codes (Z.to_nat i))
    as [c Hc].
  { change (length CrewScheduling.airport_codes) with 50%nat. lia. }
  rewrite Hc. reflexivity.
Qed.

Lemma format_02d_two_digits i : 10 ≤ i → format_02d i = str_of_int i.
Proof.
  intros Hi. unfold format_02d.
  pose proof (str_of_int_length i Hi).
  by destruct (Nat.ltb_spec (length (str_of_int i)) 2); [lia|].
Qed.

(** X1: [generate_airports] never fails and draws nothing; it returns
    [max(0, n)] codes, the first fifty being the curated codes in their
    order and the code at a position [i >= 50] being ["AP"] followed by the
    decimal digits of [i + 1], which the zero padding never alters. *)
Theorem generate_airports_codes n w :
  ∃ airports,
    CrewScheduling.generate_airports n w = Ok airports w ∧
    len airports = Z.max 0 n ∧
    (∀ i, 0 ≤ i < n → i < 50 →
       airports !! Z.to_nat i = CrewScheduling.airport_codes !! Z.to_nat i) ∧
    (∀ i, 50 ≤ i < n →
       airports !! Z.to_nat i = Some (lit "AP" ++ str_of_int (i + 1))).
Proof.
  eexists. split; [apply generate_airports_run|]. split; [|split].
  - unfold len. rewrite length_fmap, py_range_length. lia.
  - intros i Hi Hlt. rewrite list_lookup_fmap, py_range_lookup by done.
    simpl. unfold airport_code.
    change (len CrewScheduling.airport_codes) with 50.
    destruct (Z.ltb_spec i 50); [|lia].
    destruct (lookup_lt_is_Some_2 CrewScheduling.airport_codes (Z.to_nat i))
      as [c Hc].
    { change (length CrewScheduling.airport_codes) with 50%nat. lia. }
    by rewrite Hc.
  - intros i Hi. rewrite list_lookup_fmap, py_range_lookup by lia.
    simpl. unfold airport_code.
    change (len CrewScheduling.airport_codes) with 50.
    destruct (Z.ltb_spec i 50); [lia|].
    by rewrite format_02d_two_digits by lia.
Qed.

Lemma generate_airports_codes_witness :
  ∃ airports,
    CrewScheduling.generate_airports 52 idle_world = Ok airports idle_world ∧
    airports !! 2%nat = Some (lit "ORD") ∧
    airports !! 51%nat = Some (lit "AP52").
Proof.
  destruct (generate_airports_codes 52 idle_world)
    as (airports & Hrun & _ & Hcur & Hsyn).
  exists airports. split; [done|]. split.
  - apply (Hcur 2); lia.
  - apply (Hsyn 51); lia.
Defined.

Lemma airport_codes_facts :
  NoDup CrewScheduling.airport_codes ∧
  Forall (λ c : pystr, take 2 c ≠ lit "AP") CrewScheduling.airport_codes.
Proof. split; apply (bool_decide_unpack _); vm_compute; exact I. Qed.

Lemma NoDup_airport_code n : NoDup (airport_code <$> py_range n).
Proof.
  destruct airport_codes_facts as [Hnd Hap]. rewrite Forall_forall in Hap.
  apply NoDup_fmap_2_strong; [|apply NoDup_py_range].
  intros i j Hi%elem_of_py_range Hj%elem_of_py_range.
  assert (∀ k, 0 ≤ k < 50 →
            ∃ c, CrewScheduling.airport_codes !! Z.to_nat k = Some c) as Hsome.
  { intros k Hk. apply lookup_lt_is_Some_2.
    change (length CrewScheduling.airport_codes) with 50%nat. lia. }
  unfold airport_code. change (len CrewScheduling.airport_codes) with 50.
  destruct (Z.ltb_spec i 50), (Z.ltb_spec j 50).
  - destruct (Hsome i) as [c Hc]; [lia|]. destruct (Hsome j) as [d Hd]; [lia|].
    rewrite Hc, Hd. simpl. intros ->.
    pose proof (NoDup_lookup _ _ _ _ Hnd Hc Hd). lia.
  - destruct (Hsome i) as [c Hc]; [lia|]. rewrite Hc. simpl. intros ->.
    exfalso. apply (Hap _ (list_elem_of_lookup_2 _ _ _ Hc)). done.
  - destruct (Hsome j) as [d Hd]; [lia|]. rewrite Hd. simpl. intros <-.
    exfalso. apply (Hap _ (list_elem_of_lookup_2 _ _ _ Hd)). done.
  - intros Heq%app_inv_head%format_02d_inj; lia.
Qed.

(** X2: the codes returned by [generate_airports] are pairwise distinct,
    for every requested number of airports. *)
Theorem generate_airports_distinct n w :
  ∃ airports,
    CrewScheduling.generate_airports n w = Ok airports w ∧ NoDup airports.
Proof.
  eexists. split; [apply generate_airports_run|apply NoDup_airport_code].
Qed.

(** ** The sampler of flights *)

(** A loop whose body returns normally after exactly [c] draws. *)
Lemma returns_forM_drawn {A B} (body : A → M B) (c : nat)
    (P : A → B → Prop) (l : list A) w :
  (∀ x w, x ∈ l → returns (body x) w (λ y w', P x y ∧ drawn c w w')) →
  returns (forM l body) w
    (λ ys w', Forall2 P l ys ∧ drawn (c * length l) w w').
Proof.
  revert w. induction l as [|x l IH]; intros w Hb.
  - apply returns_ret. split; [constructor|].
    rewrite Nat.mul_0_r. apply drawn_0.
  - cbn [forM]. apply returns_bind.
    eapply returns_mono; [apply Hb; by left|].
    intros y w1 [Hy Hw1]. apply returns_bind.
    eapply returns_mono; [apply IH|].
    + intros z w2 Hz. apply Hb. by right.
    + intros ys w2 [Hys Hw2]. apply returns_ret. split; [by constructor|].
      simpl length. replace (c * S (length l))%nat
        with (c + c * length l)%nat by lia.
      by apply (drawn_add _ _ w w1 w2).
Qed.

Lemma returns_new_flight_full {B} (g : CrewScheduling.flight → B)
    airports origin w :
  (∃ b c, b ∈ airports ∧ c ∈ airports ∧ b ≠ c) →
  returns
    (other_airport <- choice (CrewScheduling.others airports origin) ;;
     dep_time <- randint 0 (CrewScheduling.TIME_HORIZON
                            - CrewScheduling.MAX_FLIGHT_DURATION) ;;
     duration <- randint CrewScheduling.MIN_FLIGHT_DURATION
                         CrewScheduling.MAX_FLIGHT_DURATION ;;
     ret (g (CrewScheduling.Flight origin other_airport dep_time
               (dep_time + duration)))) w
    (λ b w', ∃ f, b = g f
                  ∧ CrewScheduling.departure_airport f = origin
                  ∧ CrewScheduling.arrival_airport f ∈ airports
                  ∧ drawn 3 w w').
Proof.
  intros Htwo. apply returns_bind.
  eapply returns_mono; [by apply returns_choice, others_nonempty|].
  intros other w1 [[_ Hother]%elem_of_others Hw1]. cbv beta.
  apply returns_bind.
  eapply returns_mono; [by apply returns_randint|].
  intros dep_time w2 [_ Hw2]. cbv beta. apply returns_bind.
  eapply returns_mono; [by apply returns_randint|].
  intros duration w3 [_ Hw3]. cbv beta. apply returns_ret.
  eexists. split; [done|]. split; [done|]. split; [done|].
  apply (drawn_add 1 2 w w1 w3); [done|].
  by apply (drawn_add 1 1 w1 w2 w3).
Qed.

Lemma pystr_leb_total s t : pystr_leb s t = false → pystr_leb t s = true.
Proof.
  revert t. induction s as [|a s IH]; intros [|b t]; simpl; try done.
  destruct (N.ltb_spec a b); [done|].
  destruct (N.ltb_spec b a); [done|]. apply IH.
Qed.

Lemma flight_key_leb_total f g :
  CrewScheduling.flight_key_leb f g = false →
  CrewScheduling.flight_key_leb g f = true.
Proof.
  unfold CrewScheduling.flight_key_leb.
  intros [Hlt Heq]%orb_false_iff. apply Z.ltb_ge in Hlt.
  apply orb_true_iff.
  destruct (Z.eqb_spec (CrewScheduling.departure_time f)
              (CrewScheduling.departure_time g)) as [Htime|Htime].
  - right. simpl in Heq. apply pystr_leb_total in Heq.
    rewrite Heq, andb_true_r. apply Z.eqb_eq. lia.
  - left. apply Z.ltb_lt. lia.
Qed.

Lemma sort_insert_sorted {A} (leb : A → A → bool) x l :
  (∀ a b, leb a b = false → leb b a = true) →
  Sorted (λ a b, leb a b = true) l →
  Sorted (λ a b, leb a b = true) (sort_insert leb x l).
Proof.
  intros Htotal. induction 1 as [|y l Hsorted IH Hhd]; simpl.
  - by repeat constructor.
  - destruct (leb x y) eqn:Hxy.
    + constructor; [by constructor|]. by constructor.
    + constructor; [done|].
      destruct l as [|z l]; simpl in *.
      * constructor. by apply Htotal.
      * destruct (leb x z); constructor; [by apply Htotal|].
        by inversion Hhd.
Qed.

Lemma list_sort_sorted {A} (leb : A → A → bool) l :
  (∀ a b, leb a b = false → leb b a = true) →
  Sorted (λ a b, leb a b = true) (list_sort leb l).
Proof.
  intros Htotal. induction l as [|x l IH]; simpl; [constructor|].
  by apply sort_insert_sorted.
Qed.

Lemma Sorted_impl {A} (R R' : A → A → Prop) l :
  (∀ a b, R a b → R' a b) → Sorted R l → Sorted R' l.
Proof.
  intros Himpl. induction 1 as [|x l Hs IH Hhd]; constructor; [done|].
  destruct Hhd; constructor. by apply Himpl.
Qed.

Lemma returns_generate_flight_schedule_full airports num_flights w :
  (∃ b c, b ∈ airports ∧ c ∈ airports ∧ b ≠ c) →
  returns (CrewScheduling.generate_flight_schedule airports num_flights) w
    (λ flights w',
       length flights = Z.to_nat num_flights ∧
       drawn (4 * Z.to_nat num_flights) w w' ∧
       Forall (λ f, CrewScheduling.departure_airport f ∈ airports
                    ∧ CrewScheduling.arrival_airport f ∈ airports) flights ∧
       Sorted (λ f g, CrewScheduling.flight_key_leb f g = true) flights).
Proof.
  intros Htwo. unfold CrewScheduling.generate_flight_schedule.
  apply returns_bind. eapply returns_mono.
  - apply (returns_forM_drawn _ 4
             (λ _ f, CrewScheduling.departure_airport f ∈ airports
                     ∧ CrewScheduling.arrival_airport f ∈ airports)).
    intros _ w1 _. apply returns_bind. eapply returns_mono.
    + apply returns_choice. destruct Htwo as (b & _ & Hb & _).
      intros ->. by inversion Hb.
    + intros dep w2 [Hdep Hw2]. cbv beta.
      eapply returns_mono; [by apply (returns_new_flight_full (λ f, f))|].
      intros f w3 (f' & -> & Hfd & Hfa & Hw3). split; [by rewrite Hfd|].
      by apply (drawn_add 1 3 w1 w2 w3).
  - intros flights w' [Hall Hw']. apply returns_ret.
    pose proof (Forall2_length _ _ _ Hall) as Hlen.
    rewrite py_range_length in Hlen, Hw'.
    split; [|split; [done|split]].
    + by rewrite (Permutation_length (list_sort_perm _ _)).
    + rewrite list_sort_perm. by eapply Forall2_snd.
    + apply list_sort_sorted, flight_key_leb_total.
Qed.

(** X3: on a list with two distinct airports the sampler returns exactly
    [max(0, num_flights)] flights after exactly four draws per flight, and
    both endpoints of every flight are airports of the list. *)
Theorem generate_flight_schedule_count airports num_flights w :
  (∃ b c, b ∈ airports ∧ c ∈ airports ∧ b ≠ c) →
  ∃ flights w',
    CrewScheduling.generate_flight_schedule airports num_flights w
    = Ok flights w' ∧
    len flights = Z.max 0 num_flights ∧
    drawn (4 * length flights) w w' ∧
    Forall (λ f, CrewScheduling.departure_airport f ∈ airports
                 ∧ CrewScheduling.arrival_airport f ∈ airports) flights.
Proof.
  intros Htwo.
  pose proof (returns_generate_flight_schedule_full airports num_flights w
                Htwo) as Hret.
  apply returns_iff in Hret as (fl & w' & Hrun & Hlen & Hw' & Hin & _).
  exists fl, w'. split; [done|]. split; [unfold len; lia|].
  split; [by rewrite Hlen|done].
Qed.

Lemma generate_flight_schedule_count_witness :
  ∃ flights w',
    CrewScheduling.generate_flight_schedule [lit "JFK"; lit "LAX"] 3 idle_world
    = Ok flights w' ∧
    len flights = Z.max 0 3 ∧
    drawn (4 * length flights) idle_world w' ∧
    Forall (λ f, CrewScheduling.departure_airport f ∈ [lit "JFK"; lit "LAX"]
                 ∧ CrewScheduling.arrival_airport f ∈ [lit "JFK"; lit "LAX"])
           flights.
Proof.
  apply (generate_flight_schedule_count [lit "JFK"; lit "LAX"] 3 idle_world).
  exists (lit "JFK"), (lit "LAX").
  split; [by left|]. split; [right; by left|done].
Defined.

(** X4: whenever the sampler returns, its flights are in non-decreasing
    order of the key [(departure_time, departure_airport)]; in particular
    the departure times never decrease along the list. *)
Theorem generate_flight_schedule_sorted airports num_flights w flights w' :
  CrewScheduling.generate_flight_schedule airports num_flights w
  = Ok flights w' →
  Sorted (λ f g, CrewScheduling.flight_key_leb f g = true) flights ∧
  Sorted (λ f g, CrewScheduling.departure_time f
                 ≤ CrewScheduling.departure_time g) flights.
Proof.
  unfold CrewScheduling.generate_flight_schedule.
  intros (sampled & w1 & _ & [= <- _])%bind_Ok.
  assert (Sorted (λ f g, CrewScheduling.flight_key_leb f g = true)
            (list_sort CrewScheduling.flight_key_leb sampled)) as Hsorted
    by apply list_sort_sorted, flight_key_leb_total.
  split; [done|]. eapply Sorted_impl; [|done].
  intros f g. unfold CrewScheduling.flight_key_leb.
  intros [Hlt%Z.ltb_lt|[Heq%Z.eqb_eq _]%andb_true_iff]%orb_true_iff; lia.
Qed.

Lemma generate_flight_schedule_sorted_witness :
  ∃ flights w',
    CrewScheduling.generate_flight_schedule [lit "JFK"; lit "LAX"] 3 idle_world
    = Ok flights w' ∧
    Sorted (λ f g, CrewScheduling.flight_key_leb f g = true) flights ∧
    Sorted (λ f g, CrewScheduling.departure_time f
                   ≤ CrewScheduling.departure_time g) flights.
Proof.
  eexists _, _. split; [vm_compute; reflexivity|].
  eapply (generate_flight_schedule_sorted [lit "JFK"; lit "LAX"] 3 idle_world).
  vm_compute. reflexivity.
Defined.

(** X5: when all the airports of a non-empty list are one and the same,
    sampling at least one flight raises [IndexError] after the one draw of
    the origin; on the empty list it raises before any draw. *)
Theorem generate_flight_schedule_degenerate airports a num_flights w :
  (∀ b, b ∈ airports → b = a) → 1 ≤ num_flights →
  ∃ w',
    CrewScheduling.generate_flight_schedule airports num_flights w
    = Raise IndexError w' ∧
    drawn (if decide (airports = []) then 0 else 1) w w'.
Proof.
  intros Hall Hm. unfold CrewScheduling.generate_flight_schedule.
  rewrite py_range_pos by lia. cbn [forM].
  destruct (decide (airports = [])) as [-> |Hne].
  - exists w. split; [done|apply drawn_0].
  - pose proof (returns_choice airports w Hne) as Hret.
    apply returns_iff in Hret as (dep & w' & Hrun & Hdep & Hw').
    exists w'. split; [|done].
    assert (CrewScheduling.others airports dep = []) as Hnone.
    { apply elem_of_nil_inv. intros b [Hne' Hb]%elem_of_others.
      apply Hne'. by rewrite (Hall b Hb), (Hall dep Hdep). }
    unfold bind. rewrite Hrun. by rewrite Hnone.
Qed.

Lemma generate_flight_schedule_degenerate_witness :
  ∃ w',
    CrewScheduling.generate_flight_schedule [lit "JFK"; lit "JFK"] 2 idle_world
    = Raise IndexError w' ∧ drawn 1 idle_world w'.
Proof.
  destruct (generate_flight_schedule_degenerate [lit "JFK"; lit "JFK"]
              (lit "JFK") 2 idle_world) as (w' & Hrun & Hw').
  - intros b Hb. apply list_elem_of_In in Hb. simpl in Hb. intuition.
  - lia.
  - by exists w'.
Defined.

(** ** The connectivity repair, continued *)

Lemma ensures_new_flight_full {B} (g : CrewScheduling.flight → B)
    airports origin w :
  ensures
    (other_airport <- choice (CrewScheduling.others airports origin) ;;
     dep_time <- randint 0 (CrewScheduling.TIME_HORIZON
                            - CrewScheduling.MAX_FLIGHT_DURATION) ;;
     duration <- randint CrewScheduling.MIN_FLIGHT_DURATION
                         CrewScheduling.MAX_FLIGHT_DURATION ;;
     ret (g (CrewScheduling.Flight origin other_airport dep_time
               (dep_time + duration)))) w
    (λ b w', ∃ f, b = g f
                  ∧ CrewScheduling.departure_airport f = origin
                  ∧ CrewScheduling.arrival_airport f ∈ airports
                  ∧ drawn 3 w w').
Proof.
  apply ensures_bind.
  destruct (decide (CrewScheduling.others airports origin = [])) as [-> |Hne];
    [done|].
  apply returns_ensures.
  eapply returns_mono; [by apply returns_choice|].
  intros other w1 [[_ Hother]%elem_of_others Hw1]. cbv beta.
  apply ensures_bind, returns_ensures.
  eapply returns_mono; [by apply returns_randint|].
  intros dep_time w2 [_ Hw2]. cbv beta.
  apply ensures_bind, returns_ensures.
  eapply returns_mono; [by apply returns_randint|].
  intros duration w3 [_ Hw3]. cbv beta.
  apply ensures_ret. eexists. split; [done|]. split; [done|]. split; [done|].
  apply (drawn_add 1 2 w w1 w3); [done|].
  by apply (drawn_add 1 1 w1 w2 w3).
Qed.

Lemma ensures_ensure_connectivity_cost airports flights w :
  ensures (CrewScheduling.ensure_connectivity airports flights) w
    (λ flights' w', ∃ added,
       flights' = flights ++ added ∧
       CrewScheduling.departure_airport <$> added
         = filter (λ a, a ∉ CrewScheduling.has_departure flights) airports ∧
       Forall (λ f, CrewScheduling.arrival_airport f ∈ airports) added ∧
       drawn (3 * length added) w w').
Proof.
  unfold CrewScheduling.ensure_connectivity.
  eapply ensures_mono.
  - apply (ensures_foldM _ (λ done flights' w', ∃ added,
       flights' = flights ++ added ∧
       CrewScheduling.departure_airport <$> added
         = filter (λ a, a ∉ CrewScheduling.has_departure flights) done ∧
       Forall (λ f, CrewScheduling.arrival_airport f ∈ airports) added ∧
       drawn (3 * length added) w w')).
    + intros done airport todo fl w1 _ (added & -> & Hdep & Hin & Hw1).
      case_decide as Hmiss.
      * eapply ensures_mono;
          [apply (ensures_new_flight_full (λ f, (flights ++ added) ++ [f]))|].
        intros fl' w2 (f & -> & Hfo & Hfa & Hw2).
        exists (added ++ [f]). split; [by rewrite app_assoc|].
        split; [|split].
        -- rewrite fmap_app, filter_app, Hdep. f_equal.
           rewrite filter_cons_True by done. simpl. by rewrite Hfo.
        -- apply Forall_app. split; [done|]. by constructor.
        -- rewrite length_app. change (length [f]) with 1%nat.
           replace (3 * (length added + 1))%nat
             with (3 * length added + 3)%nat by lia.
           by apply (drawn_add _ _ w w1 w2).
      * apply ensures_ret. exists added. split; [done|]. split; [|done].
        rewrite filter_app, filter_cons_False, filter_nil, app_nil_r; [done|].
        by intros ?.
    + exists []. rewrite app_nil_r.
      split; [done|]. split; [done|]. split; [constructor|]. apply drawn_0.
  - done.
Qed.

(** X6: whenever the repair returns, it has consumed exactly three draws
    per flight it added and none for an airport that had a departure, and
    every added flight lands at an airport of the list. *)
Theorem ensure_connectivity_cost airports flights w flights' w' :
  CrewScheduling.ensure_connectivity airports flights w = Ok flights' w' →
  ∃ added,
    flights' = flights ++ added ∧
    length added
      = length (filter (λ a, a ∉ CrewScheduling.has_departure flights)
                       airports) ∧
    Forall (λ f, CrewScheduling.arrival_airport f ∈ airports) added ∧
    drawn (3 * length added) w w'.
Proof.
  intros Hrun.
  pose proof (ensures_Ok _ _ _ _ _
                (ensures_ensure_connectivity_cost airports flights w) Hrun)
    as (added & Heq & Hdep & Hin & Hw').
  exists added. split; [done|]. split; [|done].
  by rewrite <- Hdep, length_fmap.
Qed.

Lemma ensure_connectivity_cost_witness :
  ∃ flights' w' added,
    CrewScheduling.ensure_connectivity
      [lit "JFK"; lit "LAX"; lit "ORD"]
      [CrewScheduling.Flight (lit "LAX") (lit "JFK") 120 300] idle_world
    = Ok flights' w' ∧
    flights' = [CrewScheduling.Flight (lit "LAX") (lit "JFK") 120 300]
               ++ added ∧
    length added = 2%nat ∧
    drawn 6 idle_world w'.
Proof.
  assert (∃ flights' w',
            CrewScheduling.ensure_connectivity
              [lit "JFK"; lit "LAX"; lit "ORD"]
              [CrewScheduling.Flight (lit "LAX") (lit "JFK") 120 300]
              idle_world = Ok flights' w') as (flights' & w' & Hrun)
    by (eexists _, _; vm_compute; reflexivity).
  destruct (ensure_connectivity_cost _ _ _ _ _ Hrun)
    as (added & Heq & Hlen & _ & Hw').
  exists flights', w', added. split; [exact Hrun|]. split; [exact Heq|].
  assert (length added = 2%nat) as Hlen2 by (rewrite Hlen; by vm_compute).
  split; [exact Hlen2|]. by rewrite Hlen2 in Hw'.
Defined.

Lemma ensure_connectivity_noop airports flights w :
  (∀ a, a ∈ airports → a ∈ CrewScheduling.has_departure flights) →
  CrewScheduling.ensure_connectivity airports flights w = Ok flights w.
Proof.
  unfold CrewScheduling.ensure_connectivity.
  generalize (CrewScheduling.has_departure flights). intros has_dep.
  match goal with |- _ → foldM ?b _ _ _ = _ => set (body := b) end.
  assert (∀ fl a, a ∈ has_dep → body fl a w = Ok fl w) as Hbody.
  { intros fl a Ha. unfold body.
    by rewrite decide_False by (intros Hout; by apply Hout). }
  clearbody body. revert flights.
  induction airports as [|a airports IH]; intros fl Hall; [done|].
  cbn [foldM]. unfold bind. rewrite Hbody by (apply Hall; by left).
  apply IH. intros b Hb. apply Hall. by right.
Qed.

(** X7: the repair is idempotent: run again on its own result, from the
    world it left, it returns that result unchanged and draws nothing. *)
Theorem ensure_connectivity_idempotent airports flights w flights' w' :
  CrewScheduling.ensure_connectivity airports flights w = Ok flights' w' →
  CrewScheduling.ensure_connectivity airports flights' w' = Ok flights' w'.
Proof.
  intros Hrun.
  pose proof (ensures_Ok _ _ _ _ _
                (ensures_ensure_connectivity airports flights w) Hrun)
    as (added & -> & Hdep & _).
  apply ensure_connectivity_noop. intros a Ha.
  apply elem_of_has_departure.
  destruct (decide (a ∈ CrewScheduling.has_departure flights)) as [Hin|Hout].
  - apply elem_of_has_departure in Hin as (f & Hf & <-).
    exists f. split; [|done]. apply elem_of_app. by left.
  - assert (a ∈ CrewScheduling.departure_airport <$> added) as Hin.
    { rewrite Hdep. by apply list_elem_of_filter. }
    apply list_elem_of_fmap in Hin as (f & -> & Hf).
    exists f. split; [|done]. apply elem_of_app. by right.
Qed.

Lemma ensure_connectivity_idempotent_witness :
  ∃ flights' w',
    CrewScheduling.ensure_connectivity
      [lit "JFK"; lit "LAX"; lit "ORD"]
      [CrewScheduling.Flight (lit "LAX") (lit "JFK") 120 300] idle_world
    = Ok flights' w' ∧
    CrewScheduling.ensure_connectivity [lit "JFK"; lit "LAX"; lit "ORD"]
      flights' w' = Ok flights' w'.
Proof.
  eexists _, _. split; [vm_compute; reflexivity|].
  eapply (ensure_connectivity_idempotent
            [lit "JFK"; lit "LAX"; lit "ORD"]
            [CrewScheduling.Flight (lit "LAX") (lit "JFK") 120 300]
            idle_world).
  vm_compute. reflexivity.
Defined.

(** ** The flight-network dataset and its file *)

(** X8: for at least two airports the dataset has exactly [num_airports]
    pairwise distinct airports, at least the requested number of flights
    and at most [num_airports] more, and both endpoints of every flight
    are airports of the dataset. *)
Theorem crew_dataset_shape n m w :
  2 ≤ n →
  ∃ airports flights w',
    CrewScheduling.generate_dataset n m w = Ok (airports, flights) w' ∧
    len airports = n ∧ NoDup airports ∧
    Z.max 0 m ≤ len flights ≤ Z.max 0 m + n ∧
    Forall (λ f, CrewScheduling.departure_airport f ∈ airports
                 ∧ CrewScheduling.arrival_airport f ∈ airports) flights.
Proof.
  intros Hn.
  pose proof (generate_airports_run n w) as Hair.
  pose proof (NoDup_airport_code n) as Hnd.
  assert (len (airport_code <$> py_range n) = n) as Hlen
    by (unfold len; rewrite length_fmap, py_range_length; lia).
  destruct (generate_airports_two_distinct n w Hn)
    as (airports & Hair' & Htwo).
  rewrite Hair in Hair'. injection Hair' as <-.
  set (airports := airport_code <$> py_range n) in *.
  pose proof (returns_generate_flight_schedule_full airports m w Htwo) as Hret.
  apply returns_iff in Hret as (fl & w1 & Hfl & Hflen & _ & Hfin & _).
  pose proof (returns_split _ w1 _
                (returns_ensure_connectivity airports fl w1 Htwo)
                (ensures_ensure_connectivity_cost airports fl w1)) as Hret.
  apply returns_iff in Hret
    as (fl' & w2 & Hrep & added & -> & Hdep & Hain & _).
  exists airports, (fl ++ added), w2. split; [|split; [lia|split; [done|]]].
  - unfold CrewScheduling.generate_dataset, bind.
    by rewrite Hair, Hfl, Hrep.
  - split.
    + assert (length added ≤ length airports)%nat as Hadded.
      { rewrite <- (length_fmap CrewScheduling.departure_airport), Hdep.
        apply length_filter. }
      unfold len in *. rewrite length_app. lia.
    + apply Forall_app. split; [done|].
      apply Forall_forall. intros f Hf. split.
      * assert (CrewScheduling.departure_airport f
                ∈ CrewScheduling.departure_airport <$> added) as Hin
          by (apply list_elem_of_fmap; eauto).
        rewrite Hdep in Hin. by apply list_elem_of_filter in Hin as [_ ?].
      * rewrite Forall_forall in Hain. by apply Hain.
Qed.

Lemma crew_dataset_shape_witness :
  ∃ airports flights w',
    CrewScheduling.generate_dataset 3 4 idle_world = Ok (airports, flights) w' ∧
    len airports = 3 ∧ NoDup airports ∧
    Z.max 0 4 ≤ len flights ≤ Z.max 0 4 + 3 ∧
    Forall (λ f, CrewScheduling.departure_airport f ∈ airports
                 ∧ CrewScheduling.arrival_airport f ∈ airports) flights.
Proof. apply (crew_dataset_shape 3 4 idle_world). lia. Defined.

(** X9: a successful [generate_test_file] returns the file name, the
    requested number of airports and the number of flights written; the
    file at [data/<name>] holds one header line and one line per flight,
    and no other file is touched. *)
Theorem crew_generate_test_file_writes n m w r w' :
  CrewScheduling.generate_test_file n m w = Ok r w' →
  ∃ lines,
    r.1 = (CrewScheduling.file_name n m, n) ∧
    disk w' !! path_join DATA_DIR (CrewScheduling.file_name n m) = Some lines ∧
    len lines = 1 + r.2 ∧
    (∀ p, p ≠ path_join DATA_DIR (CrewScheduling.file_name n m) →
          disk w' !! p = disk w !! p).
Proof.
  unfold CrewScheduling.generate_test_file.
  intros ([airports flights] & w1 & Hds & Hrun)%bind_Ok.
  pose proof (pure_gen_crew_generate_dataset n m w) as Hpure.
  rewrite Hds in Hpure. destruct Hpure as (_ & _ & Hdisk).
  unfold bind, write_file, ret in Hrun. injection Hrun as <- <-.
  eexists. split; [done|]. simpl. split; [by rewrite lookup_insert_eq|].
  split.
  - unfold CrewScheduling.file_lines, len. simpl length.
    rewrite length_fmap. lia.
  - intros p Hp. by rewrite lookup_insert_ne, Hdisk.
Qed.

Lemma crew_generate_test_file_writes_witness :
  ∃ r w' lines,
    CrewScheduling.generate_test_file 3 4 idle_world = Ok r w' ∧
    r.1 = (CrewScheduling.file_name 3 4, 3) ∧
    disk w' !! path_join DATA_DIR (CrewScheduling.file_name 3 4) = Some lines ∧
    len lines = 1 + r.2.
Proof.
  assert (∃ r w', CrewScheduling.generate_test_file 3 4 idle_world = Ok r w')
    as (r & w' & Hrun) by (eexists _, _; vm_compute; reflexivity).
  destruct (crew_generate_test_file_writes 3 4 idle_world r w' Hrun)
    as (lines & Hr & Hfile & Hlen & _).
  exists r, w', lines. exact (conj Hrun (conj Hr (conj Hfile Hlen))).
Defined.

(** ** Sampled foods, continued *)

Lemma returns_generate_food_item_full food_id universe min_nutrients
    max_nutrients w :
  0 ≤ min_nutrients ≤ max_nutrients →
  returns
    (SetCover.generate_food_item food_id universe min_nutrients max_nutrients) w
    (λ f w',
       SetCover.MIN_CALORIES ≤ SetCover.calories f ≤ SetCover.MAX_CALORIES ∧
       SetCover.nutrients f ⊆+ universe ∧
       Z.min min_nutrients (len universe) ≤ len (SetCover.nutrients f)
         ≤ Z.min max_nutrients (len universe) ∧
       (∃ food_type, food_type ∈ SetCover.food_types ∧
          SetCover.name f = food_type ++ lit "_" ++ str_of_int food_id) ∧
       drawn (3 + length (SetCover.nutrients f)) w w').
Proof.
  intros Hm. unfold SetCover.generate_food_item.
  apply returns_bind.
  eapply returns_mono; [by apply returns_randint|].
  intros calories w1 [Hcal Hw1]. cbv beta. apply returns_bind.
  eapply returns_mono; [apply returns_randint; lia|].
  intros num w2 [Hnum Hw2]. cbv beta. apply returns_bind.
  eapply returns_mono.
  { apply returns_sample. unfold len. lia. }
  intros nutrients w3 (Hsub & Hlen & Hw3). cbv beta. apply returns_bind.
  eapply returns_mono; [by apply returns_choice|].
  intros ft w4 [Hft Hw4]. apply returns_ret.
  cbn [SetCover.calories SetCover.nutrients SetCover.name].
  split; [done|]. split; [done|]. split; [lia|].
  split; [by exists ft|].
  assert (Z.to_nat (Z.min num (len universe)) = length nutrients) as <-
    by (unfold len in *; lia).
  replace (3 + Z.to_nat (Z.min num (len universe)))%nat
    with (1 + (1 + (Z.to_nat (Z.min num (len universe)) + 1)))%nat by lia.
  apply (drawn_add _ _ w w1 w4); [done|].
  apply (drawn_add _ _ w1 w2 w4); [done|].
  by apply (drawn_add _ _ w2 w3 w4).
Qed.



(** ** The coverage repair, continued *)

(** X11: whenever the repair returns, it returns as many foods as it was
    given, each with its name and calories unchanged and with the
    nutrients it was sampled with as a prefix of its nutrient list. *)
Theorem ensure_coverage_preserves order food_items universe w food_items' w' :
  SetCover.ensure_coverage order food_items universe w = Ok food_items' w' →
  Forall2 (λ f f',
             SetCover.name f' = SetCover.name f ∧
             SetCover.calories f' = SetCover.calories f ∧
             SetCover.nutrients f `prefix_of` SetCover.nutrients f')
          food_items food_items'.
Proof.
  intros Hrun.
  pose proof (ensures_Ok _ _ _ _ _
                (ensures_ensure_coverage order food_items universe w) Hrun)
    as (Hext & _ & _).
  eapply Forall2_impl; [done|].
  intros f f' (Hname & Hcal & extra & Hn & _). split; [done|].
  split; [done|]. by exists extra.
Qed.

Lemma ensure_coverage_preserves_witness :
  ∃ food_items' w',
    SetCover.ensure_coverage backward_order example_foods example_universe
      idle_world = Ok food_items' w' ∧
    Forall2 (λ f f',
               SetCover.name f' = SetCover.name f ∧
               SetCover.calories f' = SetCover.calories f ∧
               SetCover.nutrients f `prefix_of` SetCover.nutrients f')
            example_foods food_items'.
Proof.
  eexists _, _. split; [vm_compute; reflexivity|].
  eapply (ensure_coverage_preserves backward_order example_foods
            example_universe idle_world).
  vm_compute. reflexivity.
Defined.

Lemma sum_lengths_append (food_items : list SetCover.food) i x :
  (i < length food_items)%nat →
  nutrient_entries (SetCover.append_nutrient food_items i x)
  = S (nutrient_entries food_items).
Proof.
  unfold nutrient_entries, SetCover.append_nutrient. revert i.
  induction food_items as [|f l IH]; intros [|i] Hi; simpl in *; try lia.
  - rewrite length_app. simpl. lia.
  - assert (i < length l)%nat as Hi' by lia.
    pose proof (IH i Hi') as IHi. unfold alter, fmap in IHi. lia.
Qed.

Lemma ensures_ensure_coverage_cost order food_items universe w :
  ensures (SetCover.ensure_coverage order food_items universe) w
    (λ food_items' w',
       nutrient_entries food_items'
       = (nutrient_entries food_items
          + size (uncovered food_items universe))%nat ∧
       drawn (size (uncovered food_items universe)) w w').
Proof.
  unfold SetCover.ensure_coverage. fold (uncovered food_items universe).
  assert (length (iter order (uncovered food_items universe))
          = size (uncovered food_items universe)) as <-
    by by rewrite (iter_perm order _).
  eapply ensures_mono.
  - apply (ensures_foldM _ (λ done s w',
       nutrient_entries s
       = (nutrient_entries food_items
          + length done)%nat ∧
       drawn (length done) w w')).
    + intros done x rest s w1 _ [Hsum Hw1]. apply ensures_bind.
      destruct (decide (s = [])) as [-> |Hne]; [done|].
      apply returns_ensures.
      eapply returns_mono; [by apply returns_choice_pos|].
      intros i w2 [Hi Hw2]. apply ensures_ret.
      rewrite sum_lengths_append by done. rewrite length_app. simpl.
      split; [lia|]. by apply (drawn_add _ _ w w1 w2).
    + split; [simpl; lia|apply drawn_0].
  - done.
Qed.

(** X12: whenever the repair returns, the foods hold, in total, exactly
    as many more nutrient entries as there were uncovered nutrients, and
    exactly one draw was consumed per uncovered nutrient. *)
Theorem ensure_coverage_cost order food_items universe w food_items' w' :
  SetCover.ensure_coverage order food_items universe w = Ok food_items' w' →
  nutrient_entries food_items'
  = (nutrient_entries food_items
     + size (uncovered food_items universe))%nat ∧
  drawn (size (uncovered food_items universe)) w w'.
Proof.
  intros Hrun.
  exact (ensures_Ok _ _ _ _ _
           (ensures_ensure_coverage_cost order food_items universe w) Hrun).
Qed.

Lemma ensure_coverage_cost_witness :
  ∃ food_items' w',
    SetCover.ensure_coverage backward_order example_foods example_universe
      idle_world = Ok food_items' w' ∧
    nutrient_entries food_items' = 6%nat ∧
    drawn 2 idle_world w'.
Proof.
  assert (∃ food_items' w',
            SetCover.ensure_coverage backward_order example_foods
              example_universe idle_world = Ok food_items' w')
    as (food_items' & w' & Hrun) by (eexists _, _; vm_compute; reflexivity).
  destruct (ensure_coverage_cost _ _ _ _ _ _ Hrun) as [Hsum Hw'].
  assert (size (uncovered example_foods example_universe) = 2%nat) as Hsize
    by by vm_compute.
  rewrite Hsize in Hsum, Hw'.
  exists food_items', w'. exact (conj Hrun (conj Hsum Hw')).
Defined.

Lemma ensure_coverage_noop order food_items universe w :
  uncovered food_items universe = ∅ →
  SetCover.ensure_coverage order food_items universe w = Ok food_items w.
Proof.
  intros Hnone. unfold SetCover.ensure_coverage.
  fold (uncovered food_items universe). by rewrite Hnone, iter_empty.
Qed.

(** X13: the repair is idempotent, whatever the iteration orders: run
    again on its own result, from the world it left, it returns that
    result unchanged and draws nothing. *)
Theorem ensure_coverage_idempotent order order' food_items universe w
    food_items' w' :
  SetCover.ensure_coverage order food_items universe w = Ok food_items' w' →
  SetCover.ensure_coverage order' food_items' universe w'
  = Ok food_items' w'.
Proof.
  intros Hrun.
  pose proof (ensures_Ok _ _ _ _ _
                (ensures_ensure_coverage order food_items universe w) Hrun)
    as (Hext & Hcov & _).
  apply ensure_coverage_noop. apply set_eq. intros x.
  rewrite elem_of_uncovered. split; [|set_solver].
  intros [Hx Hnot]. exfalso. apply Hnot.
  destruct (decide (x ∈ SetCover.covered food_items)) as [Hin|Hout].
  - apply elem_of_covered in Hin as (f & Hf & Hxf).
    apply list_elem_of_lookup in Hf as (i & Hi).
    destruct (Forall2_lookup_l _ _ _ _ _ Hext Hi)
      as (f' & Hi' & _ & _ & extra & Hn & _).
    exists f'. split; [by eapply list_elem_of_lookup_2|].
    rewrite Hn. apply elem_of_app. by left.
  - apply Hcov. unfold uncovered.
    apply elem_of_difference. by rewrite elem_of_list_to_set.
Qed.

Lemma ensure_coverage_idempotent_witness :
  ∃ food_items' w',
    SetCover.ensure_coverage backward_order example_foods example_universe
      idle_world = Ok food_items' w' ∧
    SetCover.ensure_coverage forward_order food_items' example_universe w'
    = Ok food_items' w'.
Proof.
  eexists _, _. split; [vm_compute; reflexivity|].
  eapply (ensure_coverage_idempotent backward_order forward_order
            example_foods example_universe idle_world).
  vm_compute. reflexivity.
Defined.

(** X14: given no food and a non-empty universe, the repair raises
    [IndexError] before any draw. *)
Theorem ensure_coverage_no_food order universe w :
  universe ≠ [] →
  SetCover.ensure_coverage order [] universe w = Raise IndexError w.
Proof.
  intros Hne. unfold SetCover.ensure_coverage. rewrite covered_nil.
  destruct (iter order (list_to_set universe ∖ ∅)) as [|x todo] eqn:Hiter;
    [|done].
  destruct universe as [|x universe]; [done|].
  assert (x ∈ iter order (list_to_set (x :: universe) ∖ ∅)) as Hin.
  { apply elem_of_iter. set_solver. }
  rewrite Hiter in Hin. by inversion Hin.
Qed.

Lemma ensure_coverage_no_food_witness :
  SetCover.ensure_coverage forward_order [] example_universe idle_world
  = Raise IndexError idle_world.
Proof. by apply (ensure_coverage_no_food forward_order example_universe). Defined.

(** ** The calorie budget, continued *)







(** X16: on an empty list of foods the fraction is drawn first and the mean
    then raises [ZeroDivisionError], after exactly one draw. *)
Theorem calculate_max_calories_no_food universe w :
  ∃ w',
    SetCover.calculate_max_calories [] universe w
    = Raise ZeroDivisionError w' ∧ drawn 1 w w'.
Proof.
  pose proof (returns_uniform (4 # 10) (6 # 10) w) as Hret.
  apply returns_iff in Hret as (r & w' & Hrun & _ & _ & Hw'); [|done].
  exists w'. split; [|done].
  unfold SetCover.calculate_max_calories, bind. by rewrite Hrun.
Qed.

(** ** The set-cover dataset and its file *)

Lemma Forall2_compose {A B C} (P : A → B → Prop) (Q : B → C → Prop)
    (R : A → C → Prop) l k m :
  (∀ a b c, P a b → Q b c → R a c) →
  Forall2 P l k → Forall2 Q k m → Forall2 R l m.
Proof.
  intros Hpq Hlk. revert m.
  induction Hlk; intros m Hkm; inversion Hkm; subst; constructor; eauto.
Qed.

Lemma returns_setcover_generate_dataset_full order nf nn w :
  1 ≤ nf → nn ≤ MAX_UNIVERSE →
  returns (SetCover.generate_dataset order nf nn) w
    (λ ds _,
       SetCover.universe ds = nutrient_name <$> py_range nn ∧
       Forall2 (λ i f,
                  2000 ≤ SetCover.calories f ≤ 2500 ∧
                  Z.min 3 (Z.max 0 nn) ≤ len (SetCover.nutrients f) ∧
                  ∃ food_type, food_type ∈ SetCover.food_types ∧
                    SetCover.name f = food_type ++ lit "_" ++ str_of_int (i + 1))
               (py_range nf) (SetCover.foods ds)).
Proof.
  intros Hnf Hnn. unfold SetCover.generate_dataset.
  destruct (generate_universe_fmap nn w Hnn) as (name & Hrun & _).
  pose proof (ensures_Ok _ _ _ _ _ (ensures_generate_universe nn w) Hrun)
    as [Hu _].
  assert (len (name <$> py_range nn) = Z.max 0 nn) as Hulen
    by (unfold len; rewrite length_fmap, py_range_length; lia).
  apply returns_bind. unfold returns at 1. rewrite Hrun.
  set (universe := name <$> py_range nn) in *. cbv zeta.
  apply returns_bind. eapply returns_mono.
  { apply (returns_forM _ (λ _, True)
             (λ i f,
                2000 ≤ SetCover.calories f ≤ 2500 ∧
                Z.min 3 (Z.max 0 nn) ≤ len (SetCover.nutrients f) ∧
                ∃ food_type, food_type ∈ SetCover.food_types ∧
                  SetCover.name f
                  = food_type ++ lit "_" ++ str_of_int (i + 1))); [|done].
    intros i w1 _ _. eapply returns_mono.
    - apply returns_generate_food_item_full. split; [done|].
      etrans; [|apply Z.le_max_l]. done.
    - intros f w2 (Hcal & _ & Hlen & Hname & _). rewrite Hulen in Hlen.
      change SetCover.MIN_NUTRIENTS_PER_FOOD with 3 in Hlen.
      split; [|done]. split; [done|]. split; [lia|done]. }
  intros food_items w1 [Hsampled _]. cbv beta.
  assert (food_items ≠ []) as Hne.
  { apply length_pos_nonempty.
    rewrite <- (Forall2_length _ _ _ Hsampled), py_range_length. lia. }
  apply returns_bind. eapply returns_mono.
  { apply returns_split; [|apply ensures_ensure_coverage].
    by apply returns_ensure_coverage. }
  intros food_items' w2 (Hext & _ & _). cbv beta.
  apply returns_bind. eapply returns_mono.
  { apply returns_calculate_max_calories, length_pos_nonempty.
    rewrite <- (Forall2_length _ _ _ Hext).
    destruct food_items; [done|simpl; lia]. }
  intros budget w3 _. apply returns_ret. simpl. split; [done|].
  eapply Forall2_compose; [|exact Hsampled|exact Hext].
  intros i f f' (Hcal & Hlen & Hname) (Hn & Hc & extra & Hnut & _).
  rewrite Hn, Hc. split; [done|]. split; [|done].
  unfold len in *. rewrite Hnut, length_app. lia.
Qed.

(** X17: for at least one food and a universe within [MAX_UNIVERSE], the
    dataset has [max(0, num_nutrients)] pairwise distinct nutrients and
    exactly [num_foods] foods; every food has calories in [2000 .. 2500]
    and at least [min(3, |universe|)] nutrients, so at least one whenever
    the universe is not empty; and the food at position [i] is named by a
    food type followed by ["_"] and [i + 1]. *)
Theorem setcover_dataset_shape order nf nn w :
  1 ≤ nf → nn ≤ MAX_UNIVERSE →
  ∃ ds w',
    SetCover.generate_dataset order nf nn w = Ok ds w' ∧
    len (SetCover.universe ds) = Z.max 0 nn ∧
    NoDup (SetCover.universe ds) ∧
    len (SetCover.foods ds) = nf ∧
    Forall (λ f, 2000 ≤ SetCover.calories f ≤ 2500 ∧
                 Z.min 3 (Z.max 0 nn) ≤ len (SetCover.nutrients f))
           (SetCover.foods ds) ∧
    (∀ i f, SetCover.foods ds !! i = Some f →
       ∃ food_type, food_type ∈ SetCover.food_types ∧
         SetCover.name f
         = food_type ++ lit "_" ++ str_of_int (Z.of_nat i + 1)).
Proof.
  intros Hnf Hnn.
  pose proof (returns_setcover_generate_dataset_full order nf nn w Hnf Hnn)
    as Hret.
  apply returns_iff in Hret as (ds & w' & Hrun & Hu & Hall).
  pose proof (Forall2_length _ _ _ Hall) as Hlen.
  rewrite py_range_length in Hlen.
  exists ds, w'. split; [done|]. split; [|split; [|split; [|split]]].
  - rewrite Hu. unfold len. rewrite length_fmap, py_range_length. lia.
  - destruct (generate_universe_fmap nn w Hnn) as (name & Hu' & _).
    pose proof (ensures_Ok _ _ _ _ _ (NoDup_generate_universe nn w) Hu')
      as Hnd.
    pose proof (ensures_Ok _ _ _ _ _ (ensures_generate_universe nn w) Hu')
      as [Heq _].
    rewrite Hu. by rewrite <- Heq.
  - unfold len. lia.
  - apply Forall_lookup. intros i f Hi.
    destruct (Forall2_lookup_r _ _ _ _ _ Hall Hi) as (j & _ & Hcal & Hn & _).
    by split.
  - intros i f Hi.
    destruct (Forall2_lookup_r _ _ _ _ _ Hall Hi) as (j & Hj & _ & _ & Hname).
    assert (j = Z.of_nat i) as ->; [|done].
    apply lookup_lt_Some in Hi as Hlt.
    rewrite <- (Nat2Z.id i) in Hj.
    rewrite py_range_lookup in Hj by lia. by injection Hj.
Qed.

Lemma setcover_dataset_shape_witness :
  ∃ ds w',
    SetCover.generate_dataset backward_order 2 5 idle_world = Ok ds w' ∧
    len (SetCover.universe ds) = Z.max 0 5 ∧
    NoDup (SetCover.universe ds) ∧
    len (SetCover.foods ds) = 2 ∧
    Forall (λ f, 2000 ≤ SetCover.calories f ≤ 2500 ∧
                 Z.min 3 (Z.max 0 5) ≤ len (SetCover.nutrients f))
           (SetCover.foods ds) ∧
    (∀ i f, SetCover.foods ds !! i = Some f →
       ∃ food_type, food_type ∈ SetCover.food_types ∧
         SetCover.name f
         = food_type ++ lit "_" ++ str_of_int (Z.of_nat i + 1)).
Proof.
  apply (setcover_dataset_shape backward_order 2 5 idle_world);
    unfold MAX_UNIVERSE; lia.
Defined.

Lemma ensures_setcover_dataset_length order nf nn w :
  ensures (SetCover.generate_dataset order nf nn) w
    (λ ds _, length (SetCover.foods ds) = Z.to_nat nf).
Proof.
  unfold SetCover.generate_dataset. apply ensures_bind.
  eapply ensures_mono; [apply ensures_generate_universe|].
  intros universe w1 _. cbv beta zeta. apply ensures_bind.
  eapply ensures_mono.
  { apply (ensures_forM _ (λ _, True) (λ _ _, True)); [|done].
    intros i w2 _ _. unfold ensures.
    by destruct (SetCover.generate_food_item _ _ _ _ w2). }
  intros food_items w2 [Hlen%Forall2_length _]. cbv beta.
  rewrite py_range_length in Hlen.
  apply ensures_bind.
  eapply ensures_mono; [apply ensures_ensure_coverage|].
  intros food_items' w3 (Hext%Forall2_length & _). cbv beta.
  apply ensures_bind. unfold ensures at 1.
  destruct (SetCover.calculate_max_calories _ _ w3); [|done].
  apply ensures_ret. simpl. lia.
Qed.

(** X18: a successful set-cover [generate_test_file] returns the file name
    and the two requested counts; the file at [data/<name>] holds the two
    header lines and one line per requested food, and no other file is
    touched. *)
Theorem setcover_generate_test_file_writes order nf nn w r w' :
  SetCover.generate_test_file order nf nn w = Ok r w' →
  ∃ lines,
    r = (SetCover.file_name nf nn, nf, nn) ∧
    disk w' !! path_join DATA_DIR (SetCover.file_name nf nn) = Some lines ∧
    len lines = 2 + Z.max 0 nf ∧
    (∀ p, p ≠ path_join DATA_DIR (SetCover.file_name nf nn) →
          disk w' !! p = disk w !! p).
Proof.
  unfold SetCover.generate_test_file.
  intros (ds & w1 & Hds & Hrun)%bind_Ok.
  pose proof (pure_gen_setcover_generate_dataset order nf nn w) as Hpure.
  rewrite Hds in Hpure. destruct Hpure as (_ & _ & Hdisk).
  pose proof (ensures_Ok _ _ _ _ _
                (ensures_setcover_dataset_length order nf nn w) Hds) as Hlen.
  unfold bind, write_file, ret in Hrun. injection Hrun as <- <-.
  eexists. split; [done|]. simpl. split; [by rewrite lookup_insert_eq|].
  split.
  - unfold SetCover.file_lines, len. simpl length.
    rewrite length_fmap. cbv beta in Hlen. lia.
  - intros p Hp. by rewrite lookup_insert_ne, Hdisk.
Qed.

Lemma setcover_generate_test_file_writes_witness :
  ∃ r w' lines,
    SetCover.generate_test_file backward_order 2 5 idle_world = Ok r w' ∧
    r = (SetCover.file_name 2 5, 2, 5) ∧
    disk w' !! path_join DATA_DIR (SetCover.file_name 2 5) = Some lines ∧
    len lines = 2 + Z.max 0 2.
Proof.
  assert (∃ r w',
            SetCover.generate_test_file backward_order 2 5 idle_world
            = Ok r w') as (r & w' & Hrun)
    by (eexists _, _; vm_compute; reflexivity).
  destruct (setcover_generate_test_file_writes _ _ _ _ _ _ Hrun)
    as (lines & Hr & Hfile & Hlen & _).
  exists r, w', lines. exact (conj Hrun (conj Hr (conj Hfile Hlen))).
Defined.

(** ** The limit of the universe *)

Lemma forM_raise_at {A B} (body : A → M B) (g : A → B) l1 x l2 e w :
  (∀ y, y ∈ l1 → body y w = Ok (g y) w) →
  body x w = Raise e w →
  forM (l1 ++ x :: l2) body w = Raise e w.
Proof.
  intros Hok Hraise. induction l1 as [|y l1 IH]; simpl.
  - unfold bind. by rewrite Hraise.
  - unfold bind at 1. rewrite Hok by left. unfold bind at 1.
    rewrite IH; [done|]. intros z Hz. apply Hok. by right.
Qed.

Lemma py_range_split n k :
  0 ≤ k < n → ∃ rest, py_range n = py_range k ++ k :: rest.
Proof.
  intros Hk. unfold py_range.
  replace (Z.to_nat n) with (Z.to_nat k + S (Z.to_nat (n - k - 1)))%nat by lia.
  rewrite seq_app, fmap_app. simpl.
  eexists. do 2 f_equal. lia.
Qed.

(** X19: [MAX_UNIVERSE] is the exact limit of [generate_universe]: asked
    for more names it raises [ValueError], from [chr], before anything is
    drawn or written. *)
Theorem generate_universe_limit n w :
  MAX_UNIVERSE < n → SetCover.generate_universe n w = Raise ValueError w.
Proof.
  intros Hn. unfold SetCover.generate_universe.
  destruct (py_range_split n MAX_UNIVERSE) as [rest ->];
    [unfold MAX_UNIVERSE in *; lia|].
  apply (forM_raise_at _ nutrient_name).
  - intros i Hi%elem_of_py_range.
    destruct (generate_universe_body i w) as (p & Hp & Hrun); [lia|].
    unfold nutrient_name. rewrite Hp. exact Hrun.
  - by vm_compute.
Qed.

Lemma generate_universe_limit_witness :
  SetCover.generate_universe 11140471 idle_world = Raise ValueError idle_world.
Proof.
  apply (generate_universe_limit 11140471 idle_world).
  unfold MAX_UNIVERSE. lia.
Defined.

(** ** The batch *)

Section batch_loop.
Context {R : Type} (gen : Z * Z → M R) (path : Z * Z → pystr)
        (valid : Z * Z → Prop).

(** A valid configuration writes its own file and nothing else. *)
Hypothesis gen_valid : ∀ c w,
  valid c →
  ∃ r w' lines, gen c w = Ok r w' ∧
    disk w' = <[path c := lines]> (disk w).

Lemma batch_loop_ok configs w :
  Forall valid configs →
  ∃ rs w',
    forM configs gen w = Ok rs w' ∧
    length rs = length configs ∧
    (∀ c, c ∈ configs → is_Some (disk w' !! path c)) ∧
    (∀ p, p ∉ path <$> configs → disk w' !! p = disk w !! p) ∧
    (∀ p, is_Some (disk w !! p) → is_Some (disk w' !! p)).
Proof.
  intros Hall. revert w.
  induction Hall as [|c configs Hc Hall IH]; intros w.
  - exists [], w. split; [done|]. split; [done|].
    split; [by intros c Hc%elem_of_nil|done].
  - destruct (gen_valid c w Hc) as (r & w1 & lines & Hrun & Hdisk).
    destruct (IH w1) as (rs & w' & Hloop & Hlen & Hwritten & Hframe & Hkeep).
    exists (r :: rs), w'. cbn [forM]. unfold bind.
    rewrite Hrun, Hloop. split; [done|]. split; [simpl; lia|].
    split; [|split].
    + intros d [-> |Hd]%elem_of_cons; [|by apply Hwritten].
      apply Hkeep. rewrite Hdisk, lookup_insert_eq. by eexists.
    + intros p Hp. cbn [fmap list_fmap] in Hp.
      apply not_elem_of_cons in Hp as [Hpc Hp].
      rewrite Hframe by done. by rewrite Hdisk, lookup_insert_ne.
    + intros p Hp. apply Hkeep. rewrite Hdisk.
      destruct (decide (path c = p)) as [-> |Hne].
      * rewrite lookup_insert_eq. by eexists.
      * by rewrite lookup_insert_ne.
Qed.

Lemma batch_loop_aborts done c rest e w :
  Forall valid done →
  (∀ w, ∃ w', gen c w = Raise e w' ∧ disk w' = disk w) →
  ∃ w',
    forM (done ++ c :: rest) gen w = Raise e w' ∧
    (∀ d, d ∈ done → is_Some (disk w' !! path d)) ∧
    (∀ p, p ∉ path <$> done → disk w' !! p = disk w !! p) ∧
    (∀ p, is_Some (disk w !! p) → is_Some (disk w' !! p)).
Proof.
  intros Hall Hfail. revert w.
  induction Hall as [|d done Hd Hall IH]; intros w.
  - destruct (Hfail w) as (w' & Hrun & Hdisk).
    exists w'. simpl. unfold bind. rewrite Hrun. split; [done|].
    split; [by intros d Hd%elem_of_nil|]. rewrite Hdisk. done.
  - destruct (gen_valid d w Hd) as (r & w1 & lines & Hrun & Hdisk).
    destruct (IH w1) as (w' & Hloop & Hwritten & Hframe & Hkeep).
    exists w'. simpl. unfold bind at 1. rewrite Hrun. unfold bind at 1.
    rewrite Hloop. split; [done|]. split; [|split].
    + intros d' [-> |Hd']%elem_of_cons; [|by apply Hwritten].
      apply Hkeep. rewrite Hdisk, lookup_insert_eq. by eexists.
    + intros p Hp. cbn [fmap list_fmap] in Hp.
      apply not_elem_of_cons in Hp as [Hpc Hp].
      rewrite Hframe by done. by rewrite Hdisk, lookup_insert_ne.
    + intros p Hp. apply Hkeep. rewrite Hdisk.
      destruct (decide (path d = p)) as [-> |Hne].
      * rewrite lookup_insert_eq. by eexists.
      * by rewrite lookup_insert_ne.
Qed.
End batch_loop.

Lemma crew_test_file_disk n m w r w' :
  CrewScheduling.generate_test_file n m w = Ok r w' →
  ∃ airports flights,
    r = (CrewScheduling.file_name n m, n, len flights) ∧
    disk w' = <[crew_path (n, m)
                := CrewScheduling.file_lines airports flights]> (disk w).
Proof.
  unfold CrewScheduling.generate_test_file.
  intros ([airports flights] & w1 & Hds & Hrun)%bind_Ok.
  pose proof (pure_gen_crew_generate_dataset n m w) as Hpure.
  rewrite Hds in Hpure. destruct Hpure as (_ & _ & Hdisk).
  unfold bind, write_file, ret in Hrun. injection Hrun as <- <-.
  exists airports, flights. split; [done|]. simpl. by rewrite Hdisk.
Qed.

Lemma setcover_test_file_disk order nf nn w r w' :
  SetCover.generate_test_file order nf nn w = Ok r w' →
  ∃ ds,
    SetCover.generate_dataset order nf nn w
    = Ok ds (World (tape w') (cursor w') (disk w)) ∧
    r = (SetCover.file_name nf nn, nf, nn) ∧
    disk w' = <[setcover_path (nf, nn) := SetCover.file_lines ds]> (disk w).
Proof.
  unfold SetCover.generate_test_file.
  intros (ds & w1 & Hds & Hrun)%bind_Ok.
  pose proof (pure_gen_setcover_generate_dataset order nf nn w) as Hpure.
  rewrite Hds in Hpure. destruct Hpure as (_ & _ & Hdisk).
  unfold bind, write_file, ret in Hrun. injection Hrun as <- <-.
  exists ds. simpl. rewrite <- Hdisk. split; [by destruct w1|].
  split; [done|done].
Qed.

Lemma crew_valid_writes c w :
  2 ≤ c.1 →
  ∃ r w' lines,
    CrewScheduling.generate_test_file c.1 c.2 w = Ok r w' ∧
    disk w' = <[crew_path c := lines]> (disk w).
Proof.
  intros Hc. destruct (crew_two_airports c.1 c.2 w Hc) as (r & w' & Hrun & _).
  destruct (crew_test_file_disk _ _ _ _ _ Hrun)
    as (airports & flights & _ & Hdisk).
  exists r, w'. eexists. split; [done|]. by destruct c.
Qed.

Lemma setcover_valid_writes order c w :
  1 ≤ c.1 ∧ c.2 ≤ MAX_ASCII_UNIVERSE →
  ∃ r w' lines,
    SetCover.generate_test_file order c.1 c.2 w = Ok r w' ∧
    disk w' = <[setcover_path c := lines]> (disk w).
Proof.
  intros [Hf Hn].
  destruct (setcover_some_food order c.1 c.2 w Hf) as (r & w' & Hrun & _).
  { unfold MAX_ASCII_UNIVERSE, MAX_UNIVERSE in *. lia. }
  destruct (setcover_test_file_disk _ _ _ _ _ _ Hrun) as (ds & _ & _ & Hdisk).
  exists r, w'. eexists. split; [done|]. by destruct c.
Qed.

Lemma crew_invalid_raises n m w :
  n < 2 → ¬ (n ≤ 0 ∧ m ≤ 0) →
  ∃ w', CrewScheduling.generate_test_file n m w = Raise IndexError w'
        ∧ disk w' = disk w.
Proof.
  intros Hn Hnot.
  assert (∃ w', CrewScheduling.generate_test_file n m w = Raise IndexError w')
    as [w' Hrun].
  { destruct (decide (n ≤ 0)) as [Hn0|Hn1].
    - exists w. apply crew_no_airport; lia.
    - assert (n = 1) as -> by lia. destruct (decide (m ≤ 0)).
      + exists w. by apply crew_one_airport_no_flight.
      + destruct (crew_one_airport_flights m w) as (w' & Hrun & _); [lia|].
        by exists w'. }
  exists w'. split; [done|]. by eapply crew_raise_no_file.
Qed.

(** X20: a crew-scheduling batch whose configurations all ask for at least
    two airports never fails, whatever the seed: it reports one entry per
    configuration, the file of every configuration is on the disk
    afterwards, and no other path is touched. *)
Theorem crew_batch_written stream_of_seed configs w :
  Forall (λ c, 2 ≤ c.1) configs →
  ∃ rs w',
    CrewScheduling.run_batch stream_of_seed configs w = Ok rs w' ∧
    length rs = length configs ∧
    (∀ c, c ∈ configs → is_Some (disk w' !! crew_path c)) ∧
    (∀ p, p ∉ crew_path <$> configs → disk w' !! p = disk w !! p).
Proof.
  intros Hall. unfold CrewScheduling.run_batch, bind, seed.
  destruct (batch_loop_ok (λ c, CrewScheduling.generate_test_file c.1 c.2)
              crew_path (λ c, 2 ≤ c.1) (λ c w, crew_valid_writes c w) configs
              (World (stream_of_seed CrewScheduling.RANDOM_SEED) 0 (disk w))
              Hall)
    as (rs & w' & Hloop & Hlen & Hwritten & Hframe & _).
  exists rs, w'. by rewrite Hloop.
Qed.

(** The shipped crew-scheduling configurations meet the condition: eight
    files. *)
Lemma crew_batch_written_witness :
  ∃ rs w',
    CrewScheduling.main zero_stream idle_world = Ok rs w' ∧
    length rs = 8%nat ∧
    (∀ c, c ∈ CrewScheduling.TEST_CONFIGS →
          is_Some (disk w' !! crew_path c)).
Proof.
  destruct (crew_batch_written zero_stream CrewScheduling.TEST_CONFIGS
              idle_world) as (rs & w' & Hrun & Hlen & Hwritten & _).
  - apply (bool_decide_unpack _). vm_compute. exact I.
  - exists rs, w'. exact (conj Hrun (conj Hlen Hwritten)).
Defined.

(** X21: a set-cover batch whose configurations all ask for at least one
    food and a universe within [MAX_ASCII_UNIVERSE] never fails, whatever
    the seed and the iteration order of sets: it reports one entry per
    configuration, the file of every configuration is on the disk
    afterwards, and no other path is touched. *)
Theorem setcover_batch_written order stream_of_seed configs w :
  Forall (λ c, 1 ≤ c.1 ∧ c.2 ≤ MAX_ASCII_UNIVERSE) configs →
  ∃ rs w',
    SetCover.run_batch order stream_of_seed configs w = Ok rs w' ∧
    length rs = length configs ∧
    (∀ c, c ∈ configs → is_Some (disk w' !! setcover_path c)) ∧
    (∀ p, p ∉ setcover_path <$> configs → disk w' !! p = disk w !! p).
Proof.
  intros Hall. unfold SetCover.run_batch, bind, seed.
  destruct (batch_loop_ok (λ c, SetCover.generate_test_file order c.1 c.2)
              setcover_path (λ c, 1 ≤ c.1 ∧ c.2 ≤ MAX_ASCII_UNIVERSE)
              (λ c w, setcover_valid_writes order c w) configs
              (World (stream_of_seed SetCover.RANDOM_SEED) 0 (disk w)) Hall)
    as (rs & w' & Hloop & Hlen & Hwritten & Hframe & _).
  exists rs, w'. by rewrite Hloop.
Qed.

(** The shipped set-cover configurations meet the condition: twelve
    files. *)
Lemma setcover_batch_written_witness :
  ∃ rs w',
    SetCover.main backward_order zero_stream idle_world = Ok rs w' ∧
    length rs = 12%nat ∧
    (∀ c, c ∈ SetCover.TEST_CONFIGS →
          is_Some (disk w' !! setcover_path c)).
Proof.
  destruct (setcover_batch_written backward_order zero_stream
              SetCover.TEST_CONFIGS idle_world)
    as (rs & w' & Hrun & Hlen & Hwritten & _).
  - apply (bool_decide_unpack _). vm_compute. exact I.
  - exists rs, w'. exact (conj Hrun (conj Hlen Hwritten)).
Defined.

(** X22: a batch stops at its first failing configuration.  When the
    configurations before it are sound and it asks for fewer than two
    airports (without both counts being non-positive), the batch raises
    [IndexError]; the files of the earlier configurations are on the disk
    and no path other than theirs is touched, so nothing is written for
    the failing configuration or for any later one. *)
Theorem crew_batch_aborts stream_of_seed done c rest w :
  Forall (λ d, 2 ≤ d.1) done →
  c.1 < 2 → ¬ (c.1 ≤ 0 ∧ c.2 ≤ 0) →
  ∃ w',
    CrewScheduling.run_batch stream_of_seed (done ++ c :: rest) w
    = Raise IndexError w' ∧
    (∀ d, d ∈ done → is_Some (disk w' !! crew_path d)) ∧
    (∀ p, p ∉ crew_path <$> done → disk w' !! p = disk w !! p).
Proof.
  intros Hall Hc Hnot. unfold CrewScheduling.run_batch, bind, seed.
  destruct (batch_loop_aborts
              (λ c, CrewScheduling.generate_test_file c.1 c.2)
              crew_path (λ c, 2 ≤ c.1) (λ c w, crew_valid_writes c w)
              done c rest IndexError
              (World (stream_of_seed CrewScheduling.RANDOM_SEED) 0 (disk w))
              Hall)
    as (w' & Hloop & Hwritten & Hframe & _).
  { intros w0. by apply crew_invalid_raises. }
  exists w'. by rewrite Hloop.
Qed.

Lemma crew_batch_aborts_witness :
  ∃ w',
    CrewScheduling.run_batch zero_stream [(3, 2); (1, 4); (5, 1)] idle_world
    = Raise IndexError w' ∧
    is_Some (disk w' !! crew_path (3, 2)) ∧
    disk w' !! crew_path (1, 4) = None ∧
    disk w' !! crew_path (5, 1) = None.
Proof.
  destruct (crew_batch_aborts zero_stream [(3, 2)] (1, 4) [(5, 1)] idle_world)
    as (w' & Hrun & Hwritten & Hframe).
  - apply (bool_decide_unpack _). vm_compute. exact I.
  - simpl. lia.
  - simpl. lia.
  - exists w'. split; [exact Hrun|]. split; [apply Hwritten; by left|].
    split.
    + rewrite Hframe; [done|].
      apply (bool_decide_unpack _). vm_compute. exact I.
    + rewrite Hframe; [done|].
      apply (bool_decide_unpack _). vm_compute. exact I.
Defined.

(** ** Vocabularies of different sizes *)

Lemma py_range_prefix n m : n ≤ m → py_range n `prefix_of` py_range m.
Proof.
  intros Hnm. unfold py_range.
  replace (Z.to_nat m) with (Z.to_nat n + (Z.to_nat m - Z.to_nat n))%nat
    by lia.
  rewrite seq_app, fmap_app. by eexists.
Qed.

(** X23: the vocabularies nest: the airports of a smaller configuration
    are the first airports of a larger one, and likewise the nutrients,
    up to [MAX_UNIVERSE]. *)
Theorem vocabularies_nest n m w :
  n ≤ m →
  (∃ a b,
     CrewScheduling.generate_airports n w = Ok a w ∧
     CrewScheduling.generate_airports m w = Ok b w ∧
     a `prefix_of` b) ∧
  (m ≤ MAX_UNIVERSE →
   ∃ u v,
     SetCover.generate_universe n w = Ok u w ∧
     SetCover.generate_universe m w = Ok v w ∧
     u `prefix_of` v).
Proof.
  intros Hnm. destruct (py_range_prefix n m Hnm) as [rest Hrest]. split.
  - eexists _, _. split; [apply generate_airports_run|].
    split; [apply generate_airports_run|].
    rewrite Hrest, fmap_app. by eexists.
  - intros Hm.
    destruct (generate_universe_fmap n w) as (name & Hn & _); [lia|].
    destruct (generate_universe_fmap m w Hm) as (name' & Hm' & _).
    pose proof (ensures_Ok _ _ _ _ _ (ensures_generate_universe n w) Hn)
      as [Hu _].
    pose proof (ensures_Ok _ _ _ _ _ (ensures_generate_universe m w) Hm')
      as [Hv _].
    rewrite Hu in Hn. rewrite Hv in Hm'.
    eexists _, _. split; [exact Hn|]. split; [exact Hm'|].
    rewrite Hrest, fmap_app. by eexists.
Qed.

Lemma vocabularies_nest_witness :
  (∃ a b,
     CrewScheduling.generate_airports 3 idle_world = Ok a idle_world ∧
     CrewScheduling.generate_airports 52 idle_world = Ok b idle_world ∧
     a `prefix_of` b) ∧
  (∃ u v,
     SetCover.generate_universe 5 idle_world = Ok u idle_world ∧
     SetCover.generate_universe 12 idle_world = Ok v idle_world ∧
     u `prefix_of` v).
Proof.
  split.
  - apply (vocabularies_nest 3 52 idle_world). lia.
  - apply (vocabularies_nest 5 12 idle_world); unfold MAX_UNIVERSE; lia.
Defined.

(** ** Names that any encoding can write *)

Lemma ascii_universe_630 :
  Forall (Forall (λ c, (c < 128)%N))
         (nutrient_name <$> py_range MAX_ASCII_UNIVERSE).
Proof. apply (bool_decide_unpack _). vm_compute. exact I. Qed.

(** X24: up to [MAX_ASCII_UNIVERSE] nutrients every name of the universe
    is made of ASCII code points only; from the next size on, the name at
    position 630 holds the code point 128. *)
Theorem universe_ascii n w :
  (n ≤ MAX_ASCII_UNIVERSE →
   ∃ u, SetCover.generate_universe n w = Ok u w ∧
        Forall (Forall (λ c, (c < 128)%N)) u) ∧
  (MAX_ASCII_UNIVERSE < n ≤ MAX_UNIVERSE →
   ∃ u name, SetCover.generate_universe n w = Ok u w ∧
             u !! 630%nat = Some name ∧ 128%N ∈ name).
Proof.
  split.
  - intros Hn.
    destruct (generate_universe_fmap n w) as (name & Hrun & _);
      [unfold MAX_ASCII_UNIVERSE, MAX_UNIVERSE in *; lia|].
    pose proof (ensures_Ok _ _ _ _ _ (ensures_generate_universe n w) Hrun)
      as [Hu _].
    rewrite Hu in Hrun. eexists. split; [exact Hrun|].
    destruct (py_range_prefix n MAX_ASCII_UNIVERSE Hn) as [rest Hrest].
    pose proof ascii_universe_630 as Hall.
    rewrite Hrest, fmap_app in Hall. by apply Forall_app in Hall as [? _].
  - intros [Hlo Hhi].
    destruct (generate_universe_fmap n w Hhi) as (name & Hrun & _).
    pose proof (ensures_Ok _ _ _ _ _ (ensures_generate_universe n w) Hrun)
      as [Hu _].
    rewrite Hu in Hrun. eexists _, (nutrient_name 630).
    split; [exact Hrun|]. split.
    + rewrite list_lookup_fmap. change 630%nat with (Z.to_nat 630).
      rewrite py_range_lookup; [done|]. unfold MAX_ASCII_UNIVERSE in Hlo. lia.
    + apply (bool_decide_unpack _). vm_compute. exact I.
Qed.

Lemma universe_ascii_witness :
  (∃ u, SetCover.generate_universe 500 idle_world = Ok u idle_world ∧
        Forall (Forall (λ c, (c < 128)%N)) u) ∧
  (∃ u name, SetCover.generate_universe 631 idle_world = Ok u idle_world ∧
             u !! 630%nat = Some name ∧ 128%N ∈ name).
Proof.
  split.
  - apply (universe_ascii 500 idle_world). unfold MAX_ASCII_UNIVERSE. lia.
  - apply (universe_ascii 631 idle_world).
    unfold MAX_ASCII_UNIVERSE, MAX_UNIVERSE. lia.
Defined.
